(** * Realtime-WebRTC: the session / transcript state machine of VoiceChat.tsx

    A shallow embedding of [src/components/VoiceChat.tsx]: the React state of
    the component, its refs, the reducer [handleRealtimeEvent] that folds
    data-channel events into the message list, and the session operations
    [connect], [cleanup] and [disconnect]. *)

From Stdlib Require Import QArith Ascii String.
From stdpp Require Import gmap list strings.

Local Open Scope Z_scope.

(** ** JavaScript strings

    A JavaScript string is a sequence of UTF-16 code units. *)

Abbreviation JsString := (list N).

(** [js s] is the JavaScript string literal with the characters of [s]. *)
Fixpoint js (s : string) : JsString :=
  match s with
  | EmptyString => []
  | String c s' => N_of_ascii c :: js s'
  end.

(** ECMAScript [WhiteSpace] and [LineTerminator] code points, the characters
    [String.prototype.trim] strips. *)
Definition is_js_whitespace (c : N) : bool :=
  ((9 <=? c) && (c <=? 13) || (c =? 32) || (c =? 160) || (c =? 5760)
   || (8192 <=? c) && (c <=? 8202) || (c =? 8232) || (c =? 8233)
   || (c =? 8239) || (c =? 8287) || (c =? 12288) || (c =? 65279))%N.

Fixpoint trimStart (s : JsString) : JsString :=
  match s with
  | [] => []
  | c :: s' => if is_js_whitespace c then trimStart s' else s
  end.

Definition trimEnd (s : JsString) : JsString := rev (trimStart (rev s)).

Definition trim (s : JsString) : JsString := trimEnd (trimStart s).

(** Truthiness of a string: only the empty string is falsy. *)
Definition truthy (s : JsString) : bool :=
  match s with [] => false | _ => true end.

(** [a || b] where [a] is a possibly missing string. *)
Definition or_else (a : option JsString) (b : JsString) : JsString :=
  match a with
  | Some s => if truthy s then s else b
  | None => b
  end.

(** ** Data model *)

(** [Date]: milliseconds since the epoch, as read by [new Date()]. *)
Abbreviation Date := N.

Inductive Role := user | assistant.

Record Message := {
  id : JsString;
  role : Role;
  text : JsString;
  timestamp : Date
}.

Inductive ConnectionStatus := disconnected | connecting | connected.

#[global] Instance Role_eq_dec : EqDecision Role.
Proof. solve_decision. Defined.
#[global] Instance Message_eq_dec : EqDecision Message.
Proof. solve_decision. Defined.
#[global] Instance ConnectionStatus_eq_dec : EqDecision ConnectionStatus.
Proof. solve_decision. Defined.

(** Handles of browser objects. *)
Abbreviation Handle := positive.

(** A [MediaStream] is known by its tracks. *)
Abbreviation MediaStream := (list Handle).

(** The component: the five [useState] cells and the [useRef] cells the
    session logic reads and writes. *)
Record VoiceChat := {
  status : ConnectionStatus;
  messages : list Message;
  isAiSpeaking : bool;
  error : option JsString;
  inputVolume : Q;
  pcRef : option Handle;
  dcRef : option Handle;
  audioElRef : option Handle;
  streamRef : option MediaStream;
  analyserRef : option Handle;
  animFrameRef : option Handle;
  partialTranscriptsRef : gmap JsString JsString
}.

(** The state on mount. *)
Definition initial : VoiceChat := {|
  status := disconnected;
  messages := [];
  isAiSpeaking := false;
  error := None;
  inputVolume := 0%Q;
  pcRef := None;
  dcRef := None;
  audioElRef := None;
  streamRef := None;
  analyserRef := None;
  animFrameRef := None;
  partialTranscriptsRef := ∅
|}.

(** *** State setters *)

Definition setStatus (v : ConnectionStatus) (st : VoiceChat) : VoiceChat :=
  {| status := v; messages := messages st; isAiSpeaking := isAiSpeaking st;
     error := error st; inputVolume := inputVolume st; pcRef := pcRef st;
     dcRef := dcRef st; audioElRef := audioElRef st; streamRef := streamRef st;
     analyserRef := analyserRef st; animFrameRef := animFrameRef st;
     partialTranscriptsRef := partialTranscriptsRef st |}.

(** [setMessages] takes the updater function, as every call in the source
    does. *)
Definition setMessages (f : list Message → list Message) (st : VoiceChat)
  : VoiceChat :=
  {| status := status st; messages := f (messages st);
     isAiSpeaking := isAiSpeaking st;
     error := error st; inputVolume := inputVolume st; pcRef := pcRef st;
     dcRef := dcRef st; audioElRef := audioElRef st; streamRef := streamRef st;
     analyserRef := analyserRef st; animFrameRef := animFrameRef st;
     partialTranscriptsRef := partialTranscriptsRef st |}.

Definition setIsAiSpeaking (v : bool) (st : VoiceChat) : VoiceChat :=
  {| status := status st; messages := messages st; isAiSpeaking := v;
     error := error st; inputVolume := inputVolume st; pcRef := pcRef st;
     dcRef := dcRef st; audioElRef := audioElRef st; streamRef := streamRef st;
     analyserRef := analyserRef st; animFrameRef := animFrameRef st;
     partialTranscriptsRef := partialTranscriptsRef st |}.

Definition setError (v : option JsString) (st : VoiceChat) : VoiceChat :=
  {| status := status st; messages := messages st;
     isAiSpeaking := isAiSpeaking st;
     error := v; inputVolume := inputVolume st; pcRef := pcRef st;
     dcRef := dcRef st; audioElRef := audioElRef st; streamRef := streamRef st;
     analyserRef := analyserRef st; animFrameRef := animFrameRef st;
     partialTranscriptsRef := partialTranscriptsRef st |}.

Definition setInputVolume (v : Q) (st : VoiceChat) : VoiceChat :=
  {| status := status st; messages := messages st;
     isAiSpeaking := isAiSpeaking st;
     error := error st; inputVolume := v; pcRef := pcRef st;
     dcRef := dcRef st; audioElRef := audioElRef st; streamRef := streamRef st;
     analyserRef := analyserRef st; animFrameRef := animFrameRef st;
     partialTranscriptsRef := partialTranscriptsRef st |}.

Definition set_pcRef (v : option Handle) (st : VoiceChat) : VoiceChat :=
  {| status := status st; messages := messages st;
     isAiSpeaking := isAiSpeaking st;
     error := error st; inputVolume := inputVolume st; pcRef := v;
     dcRef := dcRef st; audioElRef := audioElRef st; streamRef := streamRef st;
     analyserRef := analyserRef st; animFrameRef := animFrameRef st;
     partialTranscriptsRef := partialTranscriptsRef st |}.

Definition set_dcRef (v : option Handle) (st : VoiceChat) : VoiceChat :=
  {| status := status st; messages := messages st;
     isAiSpeaking := isAiSpeaking st;
     error := error st; inputVolume := inputVolume st; pcRef := pcRef st;
     dcRef := v; audioElRef := audioElRef st; streamRef := streamRef st;
     analyserRef := analyserRef st; animFrameRef := animFrameRef st;
     partialTranscriptsRef := partialTranscriptsRef st |}.

Definition set_audioElRef (v : option Handle) (st : VoiceChat) : VoiceChat :=
  {| status := status st; messages := messages st;
     isAiSpeaking := isAiSpeaking st;
     error := error st; inputVolume := inputVolume st; pcRef := pcRef st;
     dcRef := dcRef st; audioElRef := v; streamRef := streamRef st;
     analyserRef := analyserRef st; animFrameRef := animFrameRef st;
     partialTranscriptsRef := partialTranscriptsRef st |}.

Definition set_streamRef (v : option MediaStream) (st : VoiceChat)
  : VoiceChat :=
  {| status := status st; messages := messages st;
     isAiSpeaking := isAiSpeaking st;
     error := error st; inputVolume := inputVolume st; pcRef := pcRef st;
     dcRef := dcRef st; audioElRef := audioElRef st; streamRef := v;
     analyserRef := analyserRef st; animFrameRef := animFrameRef st;
     partialTranscriptsRef := partialTranscriptsRef st |}.

Definition set_analyserRef (v : option Handle) (st : VoiceChat) : VoiceChat :=
  {| status := status st; messages := messages st;
     isAiSpeaking := isAiSpeaking st;
     error := error st; inputVolume := inputVolume st; pcRef := pcRef st;
     dcRef := dcRef st; audioElRef := audioElRef st; streamRef := streamRef st;
     analyserRef := v; animFrameRef := animFrameRef st;
     partialTranscriptsRef := partialTranscriptsRef st |}.

Definition set_animFrameRef (v : option Handle) (st : VoiceChat) : VoiceChat :=
  {| status := status st; messages := messages st;
     isAiSpeaking := isAiSpeaking st;
     error := error st; inputVolume := inputVolume st; pcRef := pcRef st;
     dcRef := dcRef st; audioElRef := audioElRef st; streamRef := streamRef st;
     analyserRef := analyserRef st; animFrameRef := v;
     partialTranscriptsRef := partialTranscriptsRef st |}.

Definition set_partialTranscripts (v : gmap JsString JsString)
  (st : VoiceChat) : VoiceChat :=
  {| status := status st; messages := messages st;
     isAiSpeaking := isAiSpeaking st;
     error := error st; inputVolume := inputVolume st; pcRef := pcRef st;
     dcRef := dcRef st; audioElRef := audioElRef st; streamRef := streamRef st;
     analyserRef := analyserRef st; animFrameRef := animFrameRef st;
     partialTranscriptsRef := v |}.

(** ** The Event Interpreter: [handleRealtimeEvent] *)

(** An inbound event, [Record<string, unknown>], with its fields at the
    types the handler casts them to.  [error_message] is
    [event.error?.message]: [None] when [error] or [message] is missing. *)
Record RealtimeEvent := {
  type : JsString;
  item_id : JsString;
  delta : JsString;
  transcript : JsString;
  error_message : option JsString
}.

(** [Array.prototype.findIndex]: the first index whose element satisfies
    [p], or [-1]. *)
Fixpoint findIndex {A} (p : A → bool) (l : list A) : Z :=
  match l with
  | [] => -1
  | x :: l' => if p x then 0 else
                 let i := findIndex p l' in
                 if i <? 0 then -1 else i + 1
  end.

(** [{ ...m, text: t }] *)
Definition with_text (t : JsString) (m : Message) : Message :=
  {| id := id m; role := role m; text := t; timestamp := timestamp m |}.

(** [now] is what [new Date()] reads while the event is handled. *)
Definition handleRealtimeEvent (event : RealtimeEvent) (now : Date)
  (st : VoiceChat) : VoiceChat :=
  let type := type event in
  if decide (type = js "response.audio_transcript.delta") then
    let itemId := item_id event in
    let delta := delta event in
    let existing := default [] (partialTranscriptsRef st !! itemId) in
    let updated := existing ++ delta in
    let st := set_partialTranscripts
                (<[itemId := updated]> (partialTranscriptsRef st)) st in
    let st := setMessages (λ prev,
                let idx := findIndex (λ m, bool_decide (id m = itemId)) prev in
                if 0 <=? idx then
                  alter (with_text updated) (Z.to_nat idx) prev
                else
                  prev ++ [ {| id := itemId; role := assistant;
                               text := updated; timestamp := now |} ]) st in
    setIsAiSpeaking true st
  else if decide (type = js "response.audio_transcript.done") then
    let itemId := item_id event in
    let transcript := transcript event in
    let st := set_partialTranscripts
                (delete itemId (partialTranscriptsRef st)) st in
    let st := setMessages (λ prev,
                let idx := findIndex (λ m, bool_decide (id m = itemId)) prev in
                if 0 <=? idx then
                  alter (with_text transcript) (Z.to_nat idx) prev
                else
                  prev ++ [ {| id := itemId; role := assistant;
                               text := transcript; timestamp := now |} ]) st in
    setIsAiSpeaking false st
  else if decide
            (type = js "conversation.item.input_audio_transcription.completed")
  then
    let itemId := item_id event in
    let transcript := transcript event in
    if truthy (trim transcript) then
      setMessages (λ prev,
        prev ++ [ {| id := itemId; role := user;
                     text := trim transcript; timestamp := now |} ]) st
    else st
  else if decide (type = js "response.audio.done") then
    setIsAiSpeaking false st
  else if decide (type = js "error") then
    let errMsg := error_message event in
    setError (Some (or_else errMsg (js "An error occurred"))) st
  else st.

(** ** Effects on the browser

    The session operations call into the browser.  Calls that release or
    acquire a resource are recorded in a trace; the outcome of every call
    whose result the code inspects is supplied by the [Browser] record.
    Console output is not part of the model.  [audioCtx_close] is the call
    that would release an [AudioContext]; no operation of the component
    makes it. *)

(** A thrown value: an [Error] instance with its [message], or anything
    else. *)
Inductive Thrown := ErrorObject (message : JsString) | NonError.

Inductive Effect :=
| new_RTCPeerConnection (pc : Handle)
| body_appendChild (el : Handle)
| pc_addTrack (pc track : Handle)
| new_AudioContext (audioCtx : Handle)
| audioCtx_createMediaStreamSource (audioCtx source : Handle)
| audioCtx_createAnalyser (audioCtx analyser : Handle)
| source_connect (source analyser : Handle)
| audioCtx_close (audioCtx : Handle)
| requestAnimationFrame (frame : Handle)
| pc_createDataChannel (pc dc : Handle)
| cancelAnimationFrame (frame : Handle)
| track_stop (track : Handle)
| dc_close (dc : Handle)
| pc_close (pc : Handle)
| audioEl_srcObject_null (el : Handle)
| audioEl_remove (el : Handle).

#[global] Instance Thrown_eq_dec : EqDecision Thrown.
Proof. solve_decision. Defined.
#[global] Instance Effect_eq_dec : EqDecision Effect.
Proof. solve_decision. Defined.

Inductive Completion (A : Type) :=
| Normal (a : A)
| Abrupt (e : Thrown).
Arguments Normal {A} a.
Arguments Abrupt {A} e.

(** A computation over the component: it completes normally or throws,
    leaves a state, and emits a trace of browser calls. *)
Definition M (A : Type) : Type :=
  VoiceChat → Completion A * VoiceChat * list Effect.

#[global] Instance M_ret : MRet M := λ A a st, (Normal a, st, []).

#[global] Instance M_bind : MBind M := λ A B f m st,
  match m st with
  | (Normal a, st1, fx1) =>
      match f a st1 with (r, st2, fx2) => (r, st2, fx1 ++ fx2) end
  | (Abrupt e, st1, fx1) => (Abrupt e, st1, fx1)
  end.

Definition throw {A} (e : Thrown) : M A := λ st, (Abrupt e, st, []).

Definition emit (fx : list Effect) : M unit := λ st, (Normal (), st, fx).

Definition lift (f : VoiceChat → VoiceChat) : M unit :=
  λ st, (Normal (), f st, []).

Definition read {A} (f : VoiceChat → A) : M A := λ st, (Normal (f st), st, []).

(** [try { body } catch (err) { handler }] *)
Definition try_catch {A} (body : M A) (handler : Thrown → M A) : M A := λ st,
  match body st with
  | (Normal a, st1, fx1) => (Normal a, st1, fx1)
  | (Abrupt e, st1, fx1) =>
      match handler e st1 with (r, st2, fx2) => (r, st2, fx1 ++ fx2) end
  end.

(** The outcome of a browser call (or of an awaited promise): it threw
    (rejected) or returned (fulfilled). *)
Abbreviation Outcome A := (Thrown + A)%type.

Definition perform {A} (o : Outcome A) : M A :=
  match o with
  | inl e => throw e
  | inr a => mret a
  end.

Definition state_of {A} (r : Completion A * VoiceChat * list Effect)
  : VoiceChat := r.1.2.
Definition trace_of {A} (r : Completion A * VoiceChat * list Effect)
  : list Effect := r.2.
Definition completion_of {A} (r : Completion A * VoiceChat * list Effect)
  : Completion A := r.1.1.

(** ** Teardown: [cleanup] and [disconnect] *)

Definition cleanup : M unit :=
  animFrame ← read animFrameRef;
  match animFrame with
  | Some frame =>
      emit [cancelAnimationFrame frame];; lift (set_animFrameRef None)
  | None => mret ()
  end;;
  stream ← read streamRef;
  match stream with
  | Some tracks =>
      emit (track_stop <$> tracks);; lift (set_streamRef None)
  | None => mret ()
  end;;
  dc ← read dcRef;
  match dc with
  | Some dc => emit [dc_close dc];; lift (set_dcRef None)
  | None => mret ()
  end;;
  pc ← read pcRef;
  match pc with
  | Some pc => emit [pc_close pc];; lift (set_pcRef None)
  | None => mret ()
  end;;
  audioEl ← read audioElRef;
  match audioEl with
  | Some el =>
      emit [audioEl_srcObject_null el; audioEl_remove el];;
      lift (set_audioElRef None)
  | None => mret ()
  end;;
  lift (set_analyserRef None);;
  lift (setInputVolume 0%Q);;
  lift (setIsAiSpeaking false).

Definition disconnect : M unit :=
  cleanup;;
  lift (setStatus disconnected).

(** ** The volume meter *)

(** One run of [tick]: [data] is what [getByteFrequencyData] wrote into the
    array and [frame] the id [requestAnimationFrame] returned.  The division
    is exact here; the source computes it in floating point. *)
Definition tick (data : list N) (frame : Handle) : M unit :=
  let avg := (inject_Z (Z.of_N (foldl N.add 0%N data))
              / inject_Z (Z.of_nat (length data)))%Q in
  lift (setInputVolume (avg / 255)%Q);;
  emit [requestAnimationFrame frame];;
  lift (set_animFrameRef (Some frame)).

(** [audioCtx], [source] and [analyser] are the objects the three
    constructors return.  The context and the source are held in no ref. *)
Definition monitorVolume (audioCtx source analyser : Handle)
  (data : list N) (frame : Handle) : M unit :=
  emit [new_AudioContext audioCtx];;
  emit [audioCtx_createMediaStreamSource audioCtx source];;
  emit [audioCtx_createAnalyser audioCtx analyser];;
  emit [source_connect source analyser];;
  lift (set_analyserRef (Some analyser));;
  tick data frame.

(** ** Payloads as [JSON.parse] returns them *)

(** A JSON value.  A number is known by the string [Number::toString] gives
    for it (["0"] for both zeros); an object by its own properties. *)
#[local] Unset Elimination Schemes.
Inductive Json :=
| JNull
| JBool (b : bool)
| JNumber (toString : JsString)
| JString (s : JsString)
| JArray (items : list Json)
| JObject (properties : list (JsString * Json)).
#[local] Set Elimination Schemes.

Fixpoint own_property (key : JsString) (properties : list (JsString * Json))
  : option Json :=
  match properties with
  | [] => None
  | (k, v) :: rest => if decide (k = key) then Some v else own_property key rest
  end.

(** [v.key] for a value [v] other than [null], with [None] for [undefined]:
    the own property of an object.  Primitives and arrays have none of the
    keys the handler reads, and neither has [Object.prototype]. *)
Definition prop (key : JsString) (v : Json) : option Json :=
  match v with
  | JObject properties => own_property key properties
  | _ => None
  end.

(** Truthiness of a value that may be [undefined]. *)
Definition truthy_js (v : option Json) : bool :=
  match v with
  | None => false
  | Some JNull => false
  | Some (JBool b) => b
  | Some (JNumber toString) => negb (bool_decide (toString = js "0"))
  | Some (JString s) => truthy s
  | Some (JArray _) => true
  | Some (JObject _) => true
  end.

(** The string [existing + v] appends for a primitive [v]; [None] for arrays
    and objects, whose conversion is not part of the model. *)
Definition concat_operand (v : option Json) : option JsString :=
  match v with
  | None => Some (js "undefined")
  | Some JNull => Some (js "null")
  | Some (JBool true) => Some (js "true")
  | Some (JBool false) => Some (js "false")
  | Some (JNumber toString) => Some toString
  | Some (JString s) => Some s
  | Some (JArray _) => None
  | Some (JObject _) => None
  end.

(** The [TypeError]s of reading a property of [null] and of calling a
    [trim] that is not there. *)
Definition TypeError_null : Thrown :=
  ErrorObject (js "Cannot read properties of null (reading 'type')").
Definition TypeError_trim : Thrown :=
  ErrorObject (js "transcript.trim is not a function").

(** What [handleRealtimeEvent] makes of a parsed payload, whose fields it
    casts without checking them. *)
Inductive Reading :=
| Throws (e : Thrown)
    (* it throws before it changes anything *)
| Ignored
    (* no case of the switch runs, or the case does nothing *)
| Typed (ev : RealtimeEvent)
    (* the case runs, on fields that are strings or were turned into
       strings: it is [handleRealtimeEvent ev] *)
| Unmodelled.
    (* the case would store a value that is not a string in the state, or
       append an array or object to a string: outside this model *)

Definition read_event (event : Json) : Reading :=
  match event with
  | JNull => Throws TypeError_null
  | _ =>
      match prop (js "type") event with
      | Some (JString type) =>
          if decide (type = js "response.audio_transcript.delta") then
            match prop (js "item_id") event,
                  concat_operand (prop (js "delta") event) with
            | Some (JString itemId), Some delta =>
                Typed {| type := type; item_id := itemId; delta := delta;
                         transcript := []; error_message := None |}
            | _, _ => Unmodelled
            end
          else if decide (type = js "response.audio_transcript.done") then
            match prop (js "item_id") event, prop (js "transcript") event with
            | Some (JString itemId), Some (JString transcript) =>
                Typed {| type := type; item_id := itemId; delta := [];
                         transcript := transcript; error_message := None |}
            | _, _ => Unmodelled
            end
          else if decide
                    (type =
                     js "conversation.item.input_audio_transcription.completed")
          then
            match prop (js "transcript") event with
            | None => Ignored
            | Some JNull => Ignored
            | Some (JString transcript) =>
                if truthy (trim transcript) then
                  match prop (js "item_id") event with
                  | Some (JString itemId) =>
                      Typed {| type := type; item_id := itemId; delta := [];
                               transcript := transcript;
                               error_message := None |}
                  | _ => Unmodelled
                  end
                else Ignored
            | Some _ => Throws TypeError_trim
            end
          else if decide (type = js "response.audio.done") then
            Typed {| type := type; item_id := []; delta := [];
                     transcript := []; error_message := None |}
          else if decide (type = js "error") then
            let errMsg :=
              match prop (js "error") event with
              | None => None
              | Some JNull => None
              | Some error => prop (js "message") error
              end in
            if truthy_js errMsg then
              match errMsg with
              | Some (JString message) =>
                  Typed {| type := type; item_id := []; delta := [];
                           transcript := []; error_message := Some message |}
              | _ => Unmodelled
              end
            else
              Typed {| type := type; item_id := []; delta := [];
                       transcript := []; error_message := None |}
          else Ignored
      | _ => Ignored
      end
  end.

(** A well-typed event as a parsed payload. *)
Definition to_json (ev : RealtimeEvent) : Json :=
  JObject
    [ (js "type", JString (type ev));
      (js "item_id", JString (item_id ev));
      (js "delta", JString (delta ev));
      (js "transcript", JString (transcript ev));
      (js "error",
       JObject match error_message ev with
               | Some message => [(js "message", JString message)]
               | None => []
               end) ].

(** ** The message channel callbacks *)

Definition dc_onopen : M unit := lift (setStatus connected).

(** [data] is the outcome of [JSON.parse(event.data)]: a [SyntaxError] for a
    payload that is not JSON text, the parsed value otherwise.  The result
    is [None] where the handling leaves the model. *)
Definition dc_onmessage (data : Outcome Json) (now : Date) : option (M unit) :=
  match data with
  | inl e => Some (throw e)
  | inr event =>
      match read_event event with
      | Throws e => Some (throw e)
      | Ignored => Some (mret ())
      | Typed ev => Some (lift (handleRealtimeEvent ev now))
      | Unmodelled => None
      end
  end.

Definition dc_onclose : M unit := lift (setStatus disconnected).

(** ** The Transport Negotiator: [connect] *)

(** The body of a response of [/api/session], as far as [connect] reads it:
    [error] and [client_secret?.value]. *)
Record SessionJson := {
  json_error : option JsString;
  client_secret_value : option JsString
}.

Record SessionResponse := {
  tokenRes_ok : bool;
  tokenRes_json : Outcome SessionJson
}.

Record SdpResponse := {
  sdpRes_ok : bool;
  sdpRes_text : Outcome JsString
}.

(** What the browser and the network answer during one run of [connect]. *)
Record Browser := {
  fetch_session : Outcome SessionResponse;
  fresh_pc : Handle;
  fresh_audioEl : Handle;
  getUserMedia : Outcome MediaStream;
  fresh_audioCtx : Handle;
  fresh_source : Handle;
  fresh_analyser : Handle;
  frequencyData : list N;
  fresh_frame : Handle;
  fresh_dc : Handle;
  createOffer : Outcome JsString;
  setLocalDescription : Outcome ();
  fetch_sdp : Outcome SdpResponse;
  setRemoteDescription : Outcome ()
}.

Definition truthy_opt (a : option JsString) : bool :=
  match a with Some s => truthy s | None => false end.

(** The [try] block of [connect]. *)
Definition connect_body (env : Browser) : M unit :=
  (* 1. Get ephemeral token from our API *)
  tokenRes ← perform (fetch_session env);
  (if negb (tokenRes_ok tokenRes) then
     errData ← perform (tokenRes_json tokenRes);
     throw (ErrorObject
              (or_else (json_error errData) (js "Failed to get session token")))
   else mret ());;
  sessionData ← perform (tokenRes_json tokenRes);
  let ephemeralKey := client_secret_value sessionData in
  (if negb (truthy_opt ephemeralKey) then
     throw (ErrorObject (js "No ephemeral key received from server"))
   else mret ());;
  (* 2. Set up WebRTC peer connection *)
  let pc := fresh_pc env in
  emit [new_RTCPeerConnection pc];;
  lift (set_pcRef (Some pc));;
  (* 3. Set up remote audio playback *)
  let audioEl := fresh_audioEl env in
  emit [body_appendChild audioEl];;
  lift (set_audioElRef (Some audioEl));;
  (* 4. Capture microphone and add to peer connection *)
  stream ← perform (getUserMedia env);
  lift (set_streamRef (Some stream));;
  emit (pc_addTrack pc <$> stream);;
  monitorVolume (fresh_audioCtx env) (fresh_source env) (fresh_analyser env)
    (frequencyData env) (fresh_frame env);;
  (* 5. Create data channel for events *)
  let dc := fresh_dc env in
  emit [pc_createDataChannel pc dc];;
  lift (set_dcRef (Some dc));;
  (* 6. Create and set local SDP offer *)
  offer ← perform (createOffer env);
  perform (setLocalDescription env);;
  (* 7. Send offer to OpenAI Realtime API *)
  sdpRes ← perform (fetch_sdp env);
  (if negb (sdpRes_ok sdpRes) then
     throw (ErrorObject
              (js "Failed to establish WebRTC connection with OpenAI"))
   else mret ());;
  (* 8. Set remote SDP answer *)
  answerSdp ← perform (sdpRes_text sdpRes);
  perform (setRemoteDescription env).

(** [err instanceof Error ? err.message : "Connection failed"] *)
Definition error_text (err : Thrown) : JsString :=
  match err with
  | ErrorObject message => message
  | NonError => js "Connection failed"
  end.

Definition connect (env : Browser) : M unit :=
  lift (setError None);;
  lift (setStatus connecting);;
  try_catch (connect_body env) (λ err,
    lift (setError (Some (error_text err)));;
    lift (setStatus disconnected);;
    cleanup).

(** ** Runs of the component *)

Inductive Action :=
| Connect (env : Browser)
| Disconnect
| DcOpen
| DcMessage (data : Outcome Json) (now : Date)
| DcClose
| Tick (data : list N) (frame : Handle)
| DismissError.

Definition step (a : Action) (st : VoiceChat) : VoiceChat :=
  match a with
  | Connect env => state_of (connect env st)
  | Disconnect => state_of (disconnect st)
  | DcOpen => state_of (dc_onopen st)
  | DcMessage data now =>
      match dc_onmessage data now with
      | Some m => state_of (m st)
      | None => st
      end
  | DcClose => state_of (dc_onclose st)
  | Tick data frame => state_of (tick data frame st)
  | DismissError => setError None st
  end.

(** The states the component can be in: those a run from [initial] reaches.
    A message whose handling leaves the model contributes no step. *)
Inductive reachable : VoiceChat → Prop :=
| reachable_initial : reachable initial
| reachable_step a st : reachable st → reachable (step a st).

(** Applying a sequence of events in arrival order, each with the clock
    reading at its arrival. *)
Definition apply_events (evs : list (RealtimeEvent * Date)) (st : VoiceChat)
  : VoiceChat :=
  foldl (λ st e, handleRealtimeEvent e.1 e.2 st) st evs.

(** ** The credential endpoint: [POST] of [app/api/session/route.ts] *)

(** The session configuration the endpoint sends upstream. *)
Record SessionConfig := {
  cfg_model : JsString;
  cfg_voice : JsString;
  cfg_instructions : JsString;
  cfg_transcription_model : JsString;
  cfg_turn_detection_type : JsString;
  cfg_threshold : Q;
  cfg_prefix_padding_ms : N;
  cfg_silence_duration_ms : N
}.

(** The request to the upstream sessions endpoint. *)
Record UpstreamRequest := {
  req_url : JsString;
  req_method : JsString;
  req_authorization : JsString;
  req_content_type : JsString;
  req_body : SessionConfig
}.

(** The upstream response, as far as the handler reads it: its status and
    the outcomes of [text()] and [json()]. *)
Record UpstreamResponse := {
  up_status : N;
  up_text : Outcome JsString;
  up_json : Outcome SessionJson
}.

(** What the handler answers: a status and a JSON body, read at the two
    fields the client looks at. *)
Record NextResponse := {
  res_status : N;
  res_body : SessionJson
}.

#[global] Instance SessionJson_eq_dec : EqDecision SessionJson.
Proof. solve_decision. Defined.
#[global] Instance NextResponse_eq_dec : EqDecision NextResponse.
Proof. solve_decision. Defined.

(** [Response.ok]: the status is in the range 200 to 299. *)
Definition response_ok (status : N) : bool :=
  ((200 <=? status) && (status <=? 299))%N.

(** The statuses a response with a body may not have. *)
Definition null_body_status (status : N) : bool :=
  ((status =? 101) || (status =? 103) || (status =? 204) || (status =? 205)
   || (status =? 304))%N.

(** [NextResponse.json(body, { status })]: the [Response] constructor
    throws a [RangeError] for a status outside 200 to 599 and a [TypeError]
    for a body on a null-body status.  The handler never reads the message
    of either. *)
Definition NextResponse_json (body : SessionJson) (status : N)
  : Outcome NextResponse :=
  if negb ((200 <=? status) && (status <=? 599))%N
  then inl (ErrorObject (js "RangeError"))
  else if null_body_status status then inl (ErrorObject (js "TypeError"))
  else inr {| res_status := status; res_body := body |}.

(** [{ error: msg }] *)
Definition error_json (msg : JsString) : SessionJson :=
  {| json_error := Some msg; client_secret_value := None |}.

Definition session_config : SessionConfig := {|
  cfg_model := js "gpt-4o-realtime-preview";
  cfg_voice := js "shimmer";
  cfg_instructions :=
    js "You are a friendly, helpful voice assistant. Keep your responses concise and conversational. Speak naturally as if having a real conversation.";
  cfg_transcription_model := js "whisper-1";
  cfg_turn_detection_type := js "server_vad";
  cfg_threshold := (1 # 2)%Q;
  cfg_prefix_padding_ms := 300%N;
  cfg_silence_duration_ms := 500%N
|}.

Definition upstream_request (apiKey : JsString) : UpstreamRequest := {|
  req_url := js "https://api.openai.com/v1/realtime/sessions";
  req_method := js "POST";
  req_authorization := js "Bearer " ++ apiKey;
  req_content_type := js "application/json";
  req_body := session_config
|}.

(** The [try] block of [POST], after the request is sent: [upstream] is the
    outcome of the [fetch]. *)
Definition POST_body (upstream : Outcome UpstreamResponse)
  : Outcome NextResponse :=
  match upstream with
  | inl e => inl e
  | inr response =>
      if negb (response_ok (up_status response)) then
        match up_text response with
        | inl e => inl e
        | inr errorData =>
            NextResponse_json (error_json (js "Failed to create session"))
              (up_status response)
        end
      else
        match up_json response with
        | inl e => inl e
        | inr data => NextResponse_json data 200%N
        end
  end.

(** [POST]: [apiKey] is [process.env.OPENAI_API_KEY].  The result is the
    response and the upstream requests made. *)
Definition POST (apiKey : option JsString)
  (upstream : Outcome UpstreamResponse)
  : NextResponse * list UpstreamRequest :=
  if negb (truthy_opt apiKey) then
    ({| res_status := 500%N;
        res_body := error_json (js "OPENAI_API_KEY is not configured") |}, [])
  else
    let key := default [] apiKey in
    match POST_body upstream with
    | inr response => (response, [upstream_request key])
    | inl _ =>
        ({| res_status := 500%N;
            res_body := error_json (js "Internal server error") |},
         [upstream_request key])
    end.

(** What [fetch("/api/session")] resolves to in the browser when the
    endpoint answers [r]. *)
Definition session_fetch (r : NextResponse) : Outcome SessionResponse :=
  inr {| tokenRes_ok := response_ok (res_status r);
         tokenRes_json := inr (res_body r) |}.

(** ** The controls *)


(** * Vocabulary of the properties *)

(** ** Event kinds and sample events *)

Definition kind_fragment : JsString := js "response.audio_transcript.delta".
Definition kind_final : JsString := js "response.audio_transcript.done".
Definition kind_user_final : JsString :=
  js "conversation.item.input_audio_transcription.completed".
Definition kind_audio_done : JsString := js "response.audio.done".
Definition kind_error : JsString := js "error".

Definition recognized_kinds : list JsString :=
  [kind_fragment; kind_final; kind_user_final; kind_audio_done; kind_error].

(** ** The message list *)

(** The Messages of a list that carry a given id. *)
Definition with_id (i : JsString) (l : list Message) : list Message :=
  filter (λ m, id m = i) l.

(** The updater both assistant cases hand to [setMessages]. *)
Definition upsert (itemId t : JsString) (now : Date) (prev : list Message)
  : list Message :=
  let idx := findIndex (λ m, bool_decide (id m = itemId)) prev in
  if 0 <=? idx then alter (with_text t) (Z.to_nat idx) prev
  else prev ++ [ {| id := itemId; role := assistant;
                    text := t; timestamp := now |} ].

Definition fragment_event (i d : JsString) : RealtimeEvent :=
  {| type := kind_fragment; item_id := i; delta := d; transcript := [];
     error_message := None |}.

Definition final_event (i t : JsString) : RealtimeEvent :=
  {| type := kind_final; item_id := i; delta := []; transcript := t;
     error_message := None |}.

Definition user_final_event (i t : JsString) : RealtimeEvent :=
  {| type := kind_user_final; item_id := i; delta := []; transcript := t;
     error_message := None |}.

Definition error_event (msg : option JsString) : RealtimeEvent :=
  {| type := kind_error; item_id := []; delta := []; transcript := [];
     error_message := msg |}.

Definition other_event (kind : JsString) : RealtimeEvent :=
  {| type := kind; item_id := []; delta := []; transcript := [];
     error_message := None |}.

(** A payload that is empty or consists of whitespace only. *)
Definition blank (s : JsString) : bool := forallb is_js_whitespace s.

(** The text an assistant event writes: the accumulated fragments for a
    fragment event, the payload for a final event. *)
Definition new_text (ev : RealtimeEvent) (st : VoiceChat) : JsString :=
  if decide (type ev = kind_fragment)
  then default [] (partialTranscriptsRef st !! item_id ev) ++ delta ev
  else transcript ev.

(** The ids of a message list, in order. *)
Definition ids (l : list Message) : list JsString := id <$> l.

(** The transcript: the message list and the accumulators. *)
Definition transcript_of (st : VoiceChat)
  : list Message * gmap JsString JsString :=
  (messages st, partialTranscriptsRef st).

(** A computation that leaves the transcript as it found it. *)
Definition keeps_transcript {A} (m : M A) : Prop :=
  ∀ st, transcript_of (state_of (m st)) = transcript_of st.

(** Every id with a partial transcript names a Message of the list. *)
Definition accumulators_named (st : VoiceChat) : Prop :=
  ∀ i, is_Some (partialTranscriptsRef st !! i) → i ∈ ids (messages st).

(** Events that are all assistant-transcript-fragments for the item [i]. *)
Definition fragments_of (i : JsString) (evs : list (RealtimeEvent * Date))
  : Prop :=
  Forall (λ e, type e.1 = kind_fragment ∧ item_id e.1 = i) evs.

(** The deltas of a sequence of events, concatenated in arrival order. *)
Definition deltas (evs : list (RealtimeEvent * Date)) : JsString :=
  concat ((λ e, delta e.1) <$> evs).

(** A state the component reaches when the remote side reuses an item id
    for two user turns. *)
Definition two_user_turns : VoiceChat :=
  apply_events [ (user_final_event (js "x") (js "one"), 1%N);
                 (user_final_event (js "x") (js "two"), 2%N) ] initial.

(** ** Payloads *)

(** The kind of a parsed payload: its [type], when that is a string. *)
Definition kind_of (event : Json) : option JsString :=
  match prop (js "type") event with
  | Some (JString type) => Some type
  | _ => None
  end.

(** A payload [JSON.parse] rejects, or one that parses to a value without a
    kind: [null], a primitive, an array, or an object whose [type] is
    missing or not a string. *)
Definition malformed (data : Outcome Json) : Prop :=
  (∃ e, data = inl e) ∨ (∃ event, data = inr event ∧ kind_of event = None).

(** A payload that parses to an event of a kind the handler has no case
    for. *)
Definition unrecognized (data : Outcome Json) : Prop :=
  ∃ event kind,
    data = inr event ∧ kind_of event = Some kind ∧ kind ∉ recognized_kinds.

(** A parsed value that has none of the recognized kinds. *)
Definition no_recognized_kind (event : Json) : Prop :=
  ∀ kind, kind_of event = Some kind → kind ∉ recognized_kinds.

(** What the on-message callback does in state [st], where the model
    follows it. *)
Definition onmessage_outcome (data : Outcome Json) (now : Date)
  (st : VoiceChat) : option (Completion () * VoiceChat * list Effect) :=
  (λ m : M (), m st) <$> dc_onmessage data now.

(** A fragment event that lacks its [delta]. *)
Definition fragment_without_delta (i : JsString) : Json :=
  JObject [ (js "type", JString kind_fragment); (js "item_id", JString i) ].

(** The [SyntaxError] of [JSON.parse]. *)
Definition SyntaxError : Thrown :=
  ErrorObject (js "Unexpected token o in JSON at position 1").

(** The first event the remote side sends when it starts streaming audio. *)
Definition audio_start_event : RealtimeEvent :=
  other_event (js "output_audio_buffer.started").

(** ** Resources *)

(** The state [cleanup] leaves: every resource ref cleared and the derived
    flags reset; status, messages, error and accumulators as they were. *)
Definition torn_down (st : VoiceChat) : VoiceChat :=
  {| status := status st; messages := messages st; isAiSpeaking := false;
     error := error st; inputVolume := 0%Q; pcRef := None; dcRef := None;
     audioElRef := None; streamRef := None; analyserRef := None;
     animFrameRef := None;
     partialTranscriptsRef := partialTranscriptsRef st |}.

(** The calls [cleanup] makes, in order. *)
Definition release_calls (st : VoiceChat) : list Effect :=
  match animFrameRef st with
  | Some frame => [cancelAnimationFrame frame] | None => [] end
  ++ match streamRef st with
     | Some tracks => track_stop <$> tracks | None => [] end
  ++ match dcRef st with Some dc => [dc_close dc] | None => [] end
  ++ match pcRef st with Some pc => [pc_close pc] | None => [] end
  ++ match audioElRef st with
     | Some el => [audioEl_srcObject_null el; audioEl_remove el]
     | None => [] end.

(** No resource is held. *)
Definition all_released (st : VoiceChat) : Prop :=
  animFrameRef st = None ∧ streamRef st = None ∧ dcRef st = None
  ∧ pcRef st = None ∧ audioElRef st = None ∧ analyserRef st = None.

(** The calls that release what the refs of [st] hold are all in [fx]. *)
Definition releases (st : VoiceChat) (fx : list Effect) : Prop :=
  (∀ frame, animFrameRef st = Some frame → cancelAnimationFrame frame ∈ fx)
  ∧ (∀ tracks track, streamRef st = Some tracks → track ∈ tracks →
       track_stop track ∈ fx)
  ∧ (∀ dc, dcRef st = Some dc → dc_close dc ∈ fx)
  ∧ (∀ pc, pcRef st = Some pc → pc_close pc ∈ fx)
  ∧ (∀ el, audioElRef st = Some el →
       audioEl_srcObject_null el ∈ fx ∧ audioEl_remove el ∈ fx).

(** A browser and network in which every call of [connect] succeeds. *)
Definition sample_browser : Browser := {|
  fetch_session :=
    inr {| tokenRes_ok := true;
           tokenRes_json := inr {| json_error := None;
                                   client_secret_value := Some (js "ek_1") |}
        |};
  fresh_pc := 1%positive;
  fresh_audioEl := 2%positive;
  getUserMedia := inr [3%positive];
  fresh_audioCtx := 7%positive;
  fresh_source := 8%positive;
  fresh_analyser := 4%positive;
  frequencyData := [0%N; 255%N];
  fresh_frame := 5%positive;
  fresh_dc := 6%positive;
  createOffer := inr (js "v=0");
  setLocalDescription := inr ();
  fetch_sdp := inr {| sdpRes_ok := true; sdpRes_text := inr (js "v=0") |};
  setRemoteDescription := inr ()
|}.

(** A session in full flight: every resource held. *)
Definition connected_session : VoiceChat :=
  step DcOpen (step (Connect sample_browser) initial).

(** Every acquisition in [fx] is mirrored by the ref that owns the
    resource. *)
Definition acquired (st : VoiceChat) (fx : list Effect) : Prop :=
  (∀ pc, new_RTCPeerConnection pc ∈ fx → pcRef st = Some pc)
  ∧ (∀ el, body_appendChild el ∈ fx → audioElRef st = Some el)
  ∧ (∀ pc track, pc_addTrack pc track ∈ fx →
       ∃ tracks, streamRef st = Some tracks ∧ track ∈ tracks)
  ∧ (∀ frame, requestAnimationFrame frame ∈ fx → animFrameRef st = Some frame)
  ∧ (∀ pc dc, pc_createDataChannel pc dc ∈ fx → dcRef st = Some dc).

(** Every peer connection, audio element, track, animation frame and data
    channel acquired in [fx1] is released in [fx].  The [AudioContext] of
    the meter is not among them. *)
Definition released_after (fx1 fx : list Effect) : Prop :=
  (∀ pc, new_RTCPeerConnection pc ∈ fx1 → pc_close pc ∈ fx)
  ∧ (∀ el, body_appendChild el ∈ fx1 → audioEl_remove el ∈ fx)
  ∧ (∀ pc track, pc_addTrack pc track ∈ fx1 → track_stop track ∈ fx)
  ∧ (∀ frame, requestAnimationFrame frame ∈ fx1 →
       cancelAnimationFrame frame ∈ fx)
  ∧ (∀ pc dc, pc_createDataChannel pc dc ∈ fx1 → dc_close dc ∈ fx).

(** An error handled by reverting, releasing and reporting. *)
Definition reverted_and_reported (st : VoiceChat) : Prop :=
  status st = disconnected ∧ all_released st ∧ is_Some (error st).

(** The microphone is refused after the credential was obtained. *)
Definition mic_denied : Browser := {|
  fetch_session := fetch_session sample_browser;
  fresh_pc := 1%positive;
  fresh_audioEl := 2%positive;
  getUserMedia := inl (ErrorObject (js "Permission denied"));
  fresh_audioCtx := 7%positive;
  fresh_source := 8%positive;
  fresh_analyser := 4%positive;
  frequencyData := [];
  fresh_frame := 5%positive;
  fresh_dc := 6%positive;
  createOffer := inr (js "v=0");
  setLocalDescription := inr ();
  fetch_sdp := fetch_sdp sample_browser;
  setRemoteDescription := inr ()
|}.

(** ** History *)

(** What identifies a Message apart from its text. *)
Definition skeleton (l : list Message) : list (JsString * Role * Date) :=
  (λ m, (id m, role m, timestamp m)) <$> l.

(** Every partial transcript is the text of the first Message with its
    id. *)
Definition accumulators_mirrored (st : VoiceChat) : Prop :=
  ∀ i a, partialTranscriptsRef st !! i = Some a →
    ∃ m rest, with_id i (messages st) = m :: rest ∧ text m = a.

(** A trace that acquires nothing. *)
Definition acquires_nothing (fx : list Effect) : Prop :=
  (∀ pc, new_RTCPeerConnection pc ∉ fx)
  ∧ (∀ el, body_appendChild el ∉ fx)
  ∧ (∀ pc track, pc_addTrack pc track ∉ fx)
  ∧ (∀ frame, requestAnimationFrame frame ∉ fx)
  ∧ (∀ pc dc, pc_createDataChannel pc dc ∉ fx).

(** The error strings of the credential endpoint. *)
Definition endpoint_errors : list JsString :=
  [ js "OPENAI_API_KEY is not configured";
    js "Failed to create session";
    js "Internal server error" ].

(** A second attempt, with handles of its own, in which every call
    succeeds. *)
Definition second_browser : Browser := {|
  fetch_session := fetch_session sample_browser;
  fresh_pc := 11%positive;
  fresh_audioEl := 12%positive;
  getUserMedia := inr [13%positive];
  fresh_audioCtx := 17%positive;
  fresh_source := 18%positive;
  fresh_analyser := 14%positive;
  frequencyData := [128%N; 128%N];
  fresh_frame := 15%positive;
  fresh_dc := 16%positive;
  createOffer := inr (js "v=0");
  setLocalDescription := inr ();
  fetch_sdp := fetch_sdp sample_browser;
  setRemoteDescription := inr ()
|}.

(** A session whose message channel has closed: the status is disconnected
    and the toggle offers to connect again. *)
Definition channel_closed_session : VoiceChat :=
  step DcClose connected_session.

(** The browser of a client whose endpoint has no API key configured. *)
Definition keyless_browser : Browser := {|
  fetch_session := session_fetch (POST None (inl NonError)).1;
  fresh_pc := 1%positive;
  fresh_audioEl := 2%positive;
  getUserMedia := inr [3%positive];
  fresh_audioCtx := 7%positive;
  fresh_source := 8%positive;
  fresh_analyser := 4%positive;
  frequencyData := [0%N; 255%N];
  fresh_frame := 5%positive;
  fresh_dc := 6%positive;
  createOffer := inr (js "v=0");
  setLocalDescription := inr ();
  fetch_sdp := fetch_sdp sample_browser;
  setRemoteDescription := inr ()
|}.

(** * Properties *)

(** ** [findIndex] *)

Section FindIndex.
Context {A : Type} (p : A → bool).

Lemma findIndex_range (l : list A) :
  findIndex p l = -1 ∨ 0 <= findIndex p l < Z.of_nat (length l).
Proof.
  induction l as [|x l IH]; simpl; [by left|].
  destruct (p x); [right; lia|].
  destruct (Z.ltb_spec (findIndex p l) 0); [by left|right; lia].
Qed.

Lemma findIndex_none (l : list A) :
  Forall (λ x, p x = false) l → findIndex p l = -1.
Proof.
  induction 1 as [|x l Hx _ IH]; simpl; [done|].
  by rewrite Hx, IH.
Qed.

Lemma findIndex_first (l1 l2 : list A) (x : A) :
  Forall (λ y, p y = false) l1 → p x = true →
  findIndex p (l1 ++ x :: l2) = Z.of_nat (length l1).
Proof.
  intros H1 Hx. induction H1 as [|y l1 Hy _ IH]; simpl.
  - by rewrite Hx.
  - rewrite Hy, IH. destruct (Z.ltb_spec (Z.of_nat (length l1)) 0); lia.
Qed.

(** Either nothing satisfies [p], or the list splits at the first element
    that does. *)
Lemma first_split (l : list A) :
  Forall (λ x, p x = false) l
  ∨ ∃ l1 x l2, l = l1 ++ x :: l2 ∧ Forall (λ y, p y = false) l1 ∧ p x = true.
Proof.
  induction l as [|x l IH]; [by left|].
  destruct (p x) eqn:Hx.
  - right. by exists [], x, l.
  - destruct IH as [IH | (l1 & y & l2 & -> & H1 & Hy)].
    + left. by constructor.
    + right. exists (x :: l1), y, l2. repeat split; [by constructor|done].
Qed.
End FindIndex.

(** ** [upsert] *)

Lemma no_id_Forall (i : JsString) (l : list Message) :
  (∀ m, m ∈ l → id m ≠ i) ↔
  Forall (λ m, bool_decide (id m = i) = false) l.
Proof.
  rewrite Forall_forall. split; intros H m Hm.
  - apply bool_decide_eq_false_2. by apply H.
  - apply (bool_decide_eq_false_1 (id m = i)). by apply H.
Qed.

Lemma upsert_absent i t now prev :
  (∀ m, m ∈ prev → id m ≠ i) →
  upsert i t now prev =
    prev ++ [ {| id := i; role := assistant; text := t; timestamp := now |} ].
Proof.
  intros H. unfold upsert.
  rewrite findIndex_none; [done|]. by apply no_id_Forall.
Qed.

Lemma upsert_present i t now l1 m l2 :
  (∀ m', m' ∈ l1 → id m' ≠ i) → id m = i →
  upsert i t now (l1 ++ m :: l2) = l1 ++ with_text t m :: l2.
Proof.
  intros H1 Hm. unfold upsert.
  rewrite (findIndex_first _ l1 l2 m);
    [|by apply no_id_Forall|by apply bool_decide_eq_true].
  destruct (Z.leb_spec 0 (Z.of_nat (length l1))); [|lia].
  rewrite Nat2Z.id. clear.
  induction l1 as [|x l1 IH]; simpl; [done|].
  f_equal. apply IH.
Qed.

(** A list in which some Message carries [i] splits at the first such
    Message. *)
Lemma split_at_id (i : JsString) (l : list Message) :
  (∃ m, m ∈ l ∧ id m = i) →
  ∃ l1 m l2, l = l1 ++ m :: l2 ∧ id m = i ∧ (∀ m', m' ∈ l1 → id m' ≠ i).
Proof.
  intros (m0 & Hin & Hid).
  destruct (first_split (λ m, bool_decide (id m = i)) l)
    as [Hnone | (l1 & m & l2 & -> & H1 & Hm)].
  - destruct (proj2 (no_id_Forall i l) Hnone m0 Hin Hid).
  - exists l1, m, l2. split; [done|]. split.
    + by apply bool_decide_eq_true in Hm.
    + by apply no_id_Forall.
Qed.

Lemma with_id_absent (i : JsString) (l : list Message) :
  (∀ m, m ∈ l → id m ≠ i) → with_id i l = [].
Proof.
  intros H. unfold with_id. induction l as [|x l IH]; [done|].
  rewrite filter_cons_False; [|apply H; by left].
  apply IH. intros m Hm. apply H. by right.
Qed.

Lemma with_id_app (i : JsString) (l1 l2 : list Message) :
  with_id i (l1 ++ l2) = with_id i l1 ++ with_id i l2.
Proof. apply filter_app. Qed.

Lemma with_id_cons_eq (i : JsString) (m : Message) (l : list Message) :
  id m = i → with_id i (m :: l) = m :: with_id i l.
Proof. intros H. unfold with_id. by rewrite filter_cons_True. Qed.

Lemma with_id_cons_ne (i : JsString) (m : Message) (l : list Message) :
  id m ≠ i → with_id i (m :: l) = with_id i l.
Proof. intros H. unfold with_id. by rewrite filter_cons_False. Qed.

(** The messages after each kind of event. *)

Lemma handle_fragment ev now st :
  type ev = kind_fragment →
  handleRealtimeEvent ev now st =
    let updated := default [] (partialTranscriptsRef st !! item_id ev)
                   ++ delta ev in
    setIsAiSpeaking true
      (setMessages (upsert (item_id ev) updated now)
         (set_partialTranscripts
            (<[item_id ev := updated]> (partialTranscriptsRef st)) st)).
Proof.
  intros H. unfold handleRealtimeEvent. rewrite H.
  by rewrite decide_True by done.
Qed.

Lemma handle_final ev now st :
  type ev = kind_final →
  handleRealtimeEvent ev now st =
    setIsAiSpeaking false
      (setMessages (upsert (item_id ev) (transcript ev) now)
         (set_partialTranscripts
            (delete (item_id ev) (partialTranscriptsRef st)) st)).
Proof.
  intros H. unfold handleRealtimeEvent. rewrite H.
  rewrite decide_False by (by vm_compute).
  by rewrite decide_True by done.
Qed.

Lemma handle_user_final ev now st :
  type ev = kind_user_final →
  handleRealtimeEvent ev now st =
    if truthy (trim (transcript ev)) then
      setMessages (λ prev,
        prev ++ [ {| id := item_id ev; role := user;
                     text := trim (transcript ev); timestamp := now |} ]) st
    else st.
Proof.
  intros H. unfold handleRealtimeEvent. rewrite H.
  do 2 rewrite decide_False by (by vm_compute).
  by rewrite decide_True by done.
Qed.

Lemma handle_audio_done ev now st :
  type ev = kind_audio_done →
  handleRealtimeEvent ev now st = setIsAiSpeaking false st.
Proof.
  intros H. unfold handleRealtimeEvent. rewrite H.
  do 3 rewrite decide_False by (by vm_compute).
  by rewrite decide_True by done.
Qed.

Lemma handle_error ev now st :
  type ev = kind_error →
  handleRealtimeEvent ev now st =
    setError (Some (or_else (error_message ev) (js "An error occurred"))) st.
Proof.
  intros H. unfold handleRealtimeEvent. rewrite H.
  do 4 rewrite decide_False by (by vm_compute).
  by rewrite decide_True by done.
Qed.

Lemma handle_unrecognized ev now st :
  type ev ∉ recognized_kinds →
  handleRealtimeEvent ev now st = st.
Proof.
  intros H. unfold handleRealtimeEvent.
  repeat (rewrite decide_False;
          [|intros Heq; apply H; rewrite Heq; set_solver]).
  done.
Qed.

(** ** [trim] *)

Lemma trimStart_blank s : blank s = true → trimStart s = [].
Proof.
  induction s as [|c s IH]; simpl; [done|].
  destruct (is_js_whitespace c); [exact IH|done].
Qed.

Lemma trimStart_not_blank s :
  blank s = false →
  ∃ c s', trimStart s = c :: s' ∧ is_js_whitespace c = false.
Proof.
  induction s as [|c s IH]; simpl; [done|].
  destruct (is_js_whitespace c) eqn:Hc; [exact IH|].
  intros _. by exists c, s.
Qed.

Lemma trimStart_snoc s c :
  is_js_whitespace c = false → trimStart (s ++ [c]) ≠ [].
Proof.
  intros Hc. induction s as [|d s IH]; simpl.
  - by rewrite Hc.
  - by destruct (is_js_whitespace d).
Qed.

Lemma truthy_trim s : truthy (trim s) = negb (blank s).
Proof.
  unfold trim, trimEnd. destruct (blank s) eqn:Hb; simpl.
  - by rewrite (trimStart_blank s Hb).
  - destruct (trimStart_not_blank s Hb) as (c & s' & -> & Hc).
    simpl. pose proof (trimStart_snoc (rev s') c Hc) as Hne.
    destruct (trimStart (rev s' ++ [c])) as [|d r] eqn:Hr; [done|].
    simpl. by destruct (rev r).
Qed.

(** ** Upsert by id (C7, C10) *)

Lemma messages_assistant_event ev now st :
  type ev = kind_fragment ∨ type ev = kind_final →
  messages (handleRealtimeEvent ev now st) =
    upsert (item_id ev) (new_text ev st) now (messages st).
Proof.
  unfold new_text. intros [H|H].
  - rewrite handle_fragment by done. by rewrite decide_True by done.
  - rewrite handle_final by done. rewrite decide_False; [done|].
    rewrite H. by vm_compute.
Qed.

(** What an assistant event does to a list that already holds its id. *)
Lemma assistant_event_present ev now st :
  type ev = kind_fragment ∨ type ev = kind_final →
  (∃ m, m ∈ messages st ∧ id m = item_id ev) →
  ∃ l1 m l2,
    messages st = l1 ++ m :: l2 ∧ id m = item_id ev ∧
    (∀ m', m' ∈ l1 → id m' ≠ item_id ev) ∧
    messages (handleRealtimeEvent ev now st) =
      l1 ++ with_text (new_text ev st) m :: l2.
Proof.
  intros Hkind Hex.
  rewrite (messages_assistant_event ev now st Hkind).
  destruct (split_at_id (item_id ev) (messages st) Hex)
    as (l1 & m & l2 & Heq & Hid & Hl1).
  exists l1, m, l2. repeat split; try done.
  rewrite Heq. by apply upsert_present.
Qed.

Lemma assistant_event_absent ev now st :
  type ev = kind_fragment ∨ type ev = kind_final →
  (∀ m, m ∈ messages st → id m ≠ item_id ev) →
  messages (handleRealtimeEvent ev now st) =
    messages st ++ [ {| id := item_id ev; role := assistant;
                        text := new_text ev st; timestamp := now |} ].
Proof.
  intros Hkind Hno.
  rewrite (messages_assistant_event ev now st Hkind).
  by apply upsert_absent.
Qed.

(** C7: an assistant-transcript-fragment or assistant-transcript-final event
    whose item id names an existing Message replaces the text of the first
    such Message and nothing else: the Messages before and after it, its
    position, id, role and timestamp are kept.  When no Message has the id,
    one new assistant Message is appended at the end, stamped with the
    clock reading of the event. *)
Theorem upsert_in_place_or_append ev now st :
  type ev = kind_fragment ∨ type ev = kind_final →
  let i := item_id ev in
  let st' := handleRealtimeEvent ev now st in
  ((∃ m, m ∈ messages st ∧ id m = i) →
   ∃ l1 m l2,
     messages st = l1 ++ m :: l2 ∧ id m = i ∧ (∀ m', m' ∈ l1 → id m' ≠ i) ∧
     messages st' =
       l1 ++ {| id := id m; role := role m; text := new_text ev st;
                timestamp := timestamp m |} :: l2)
  ∧ ((∀ m, m ∈ messages st → id m ≠ i) →
     messages st' =
       messages st ++ [ {| id := i; role := assistant;
                           text := new_text ev st; timestamp := now |} ]).
Proof.
  intros Hkind i st'. subst i st'. split.
  - intros Hex.
    destruct (assistant_event_present ev now st Hkind Hex)
      as (l1 & m & l2 & Heq & Hid & Hl1 & Hst').
    by exists l1, m, l2.
  - intros Hno. by apply assistant_event_absent.
Qed.

Lemma upsert_in_place_or_append_witness :
  let st := handleRealtimeEvent (fragment_event (js "a1") (js "Hel")) 1%N
              initial in
  let ev := fragment_event (js "a1") (js "lo") in
  (type ev = kind_fragment ∨ type ev = kind_final)
  ∧ (∃ m, m ∈ messages st ∧ id m = item_id ev)
  ∧ messages (handleRealtimeEvent ev 2%N st) =
      [ {| id := js "a1"; role := assistant; text := js "Hello";
           timestamp := 1%N |} ].
Proof.
  intros st ev.
  assert (Hk : type ev = kind_fragment ∨ type ev = kind_final) by by left.
  assert (Hex : ∃ m, m ∈ messages st ∧ id m = item_id ev).
  { eexists. split; [by left|done]. }
  split; [exact Hk|]. split; [exact Hex|].
  destruct (proj1 (upsert_in_place_or_append ev 2%N st Hk) Hex)
    as (l1 & m & l2 & _ & _ & _ & _).
  by vm_compute.
Defined.

(** C10: when a Message with the event's id exists but the accumulator has
    no entry for it, a fragment event replaces that Message's text with the
    delta alone; the accumulator restarts from the empty string. *)
Theorem fragment_after_final_restarts ev now st :
  type ev = kind_fragment →
  partialTranscriptsRef st !! item_id ev = None →
  (∃ m, m ∈ messages st ∧ id m = item_id ev) →
  let i := item_id ev in
  let st' := handleRealtimeEvent ev now st in
  ∃ l1 m l2,
    messages st = l1 ++ m :: l2 ∧ id m = i ∧ (∀ m', m' ∈ l1 → id m' ≠ i) ∧
    messages st' =
      l1 ++ {| id := id m; role := role m; text := delta ev;
               timestamp := timestamp m |} :: l2 ∧
    partialTranscriptsRef st' !! i = Some (delta ev).
Proof.
  intros Hkind Hacc Hex i st'.
  destruct (assistant_event_present ev now st (or_introl Hkind) Hex)
    as (l1 & m & l2 & Heq & Hid & Hl1 & Hst').
  exists l1, m, l2. repeat split; try done.
  - subst st'. rewrite Hst'. unfold new_text, with_text.
    rewrite decide_True by done. by rewrite Hacc.
  - subst st'. rewrite handle_fragment by done. simpl.
    rewrite Hacc. simpl. by rewrite lookup_insert_eq.
Qed.

Lemma fragment_after_final_restarts_witness :
  let st := handleRealtimeEvent (final_event (js "a1") (js "Hello there")) 1%N
              initial in
  let ev := fragment_event (js "a1") (js "Hi") in
  type ev = kind_fragment
  ∧ partialTranscriptsRef st !! item_id ev = None
  ∧ (∃ m, m ∈ messages st ∧ id m = item_id ev)
  ∧ messages (handleRealtimeEvent ev 2%N st) =
      [ {| id := js "a1"; role := assistant; text := js "Hi";
           timestamp := 1%N |} ].
Proof.
  intros st ev.
  assert (Hk : type ev = kind_fragment) by done.
  assert (Hacc : partialTranscriptsRef st !! item_id ev = None)
    by by vm_compute.
  assert (Hex : ∃ m, m ∈ messages st ∧ id m = item_id ev).
  { eexists. split; [by left|done]. }
  split; [exact Hk|]. split; [exact Hacc|]. split; [exact Hex|].
  destruct (fragment_after_final_restarts ev 2%N st Hk Hacc Hex)
    as (l1 & m & l2 & _ & _ & _ & _ & _).
  by vm_compute.
Defined.

(** ** User turns (C8) *)

(** C8: a user-transcript-final event whose payload is empty or
    whitespace-only leaves the message list (indeed the whole state)
    unchanged; with any other payload it appends exactly one Message after
    all prior ones, with role user and the trimmed payload as text. *)
Theorem user_final_appends_or_drops ev now st :
  type ev = kind_user_final →
  let st' := handleRealtimeEvent ev now st in
  (blank (transcript ev) = true → st' = st ∧ messages st' = messages st)
  ∧ (blank (transcript ev) = false →
     messages st' =
       messages st ++ [ {| id := item_id ev; role := user;
                           text := trim (transcript ev);
                           timestamp := now |} ]
     ∧ trim (transcript ev) ≠ []).
Proof.
  intros Hkind st'. subst st'. rewrite handle_user_final by done.
  rewrite truthy_trim. split; intros Hb; rewrite Hb; simpl; [done|].
  split; [done|]. intros Ht.
  pose proof (truthy_trim (transcript ev)) as Htt.
  by rewrite Ht, Hb in Htt.
Qed.

Lemma user_final_appends_or_drops_witness :
  let ev1 := user_final_event (js "u1") (js "   ") in
  let ev2 := user_final_event (js "u2") (js "  hi there ") in
  type ev1 = kind_user_final ∧ type ev2 = kind_user_final
  ∧ messages (handleRealtimeEvent ev1 1%N initial) = []
  ∧ messages (handleRealtimeEvent ev2 2%N initial) =
      [ {| id := js "u2"; role := user; text := js "hi there";
           timestamp := 2%N |} ].
Proof.
  intros ev1 ev2.
  assert (H1 : type ev1 = kind_user_final) by done.
  assert (H2 : type ev2 = kind_user_final) by done.
  split; [exact H1|]. split; [exact H2|]. split.
  - destruct (proj1 (user_final_appends_or_drops ev1 1%N initial H1)) as [_ E];
      [by vm_compute|exact E].
  - destruct (proj2 (user_final_appends_or_drops ev2 2%N initial H2)) as [E _];
      [by vm_compute|]. rewrite E. by vm_compute.
Defined.

(** ** The ids of the message list *)

Lemma elem_of_ids (i : JsString) (l : list Message) :
  i ∈ ids l ↔ ∃ m, m ∈ l ∧ id m = i.
Proof.
  unfold ids. rewrite list_elem_of_fmap. split.
  - intros (m & -> & Hm). by exists m.
  - intros (m & Hm & <-). by exists m.
Qed.

(** The two ways [upsert] can go. *)
Lemma upsert_cases i t now prev :
  ((i ∉ ids prev) ∧
   upsert i t now prev =
     prev ++ [ {| id := i; role := assistant; text := t; timestamp := now |} ])
  ∨ (∃ l1 m l2,
       prev = l1 ++ m :: l2 ∧ id m = i ∧ (∀ m', m' ∈ l1 → id m' ≠ i) ∧
       upsert i t now prev = l1 ++ with_text t m :: l2).
Proof.
  destruct (decide (i ∈ ids prev)) as [Hin|Hnin].
  - right. apply elem_of_ids in Hin.
    destruct (split_at_id i prev Hin) as (l1 & m & l2 & -> & Hid & Hl1).
    exists l1, m, l2. repeat split; try done. by apply upsert_present.
  - left. split; [done|]. apply upsert_absent.
    intros m Hm Hid. apply Hnin, elem_of_ids. by exists m.
Qed.

Lemma upsert_ids i t now prev :
  ids (upsert i t now prev) =
    if decide (i ∈ ids prev) then ids prev else ids prev ++ [i].
Proof.
  destruct (upsert_cases i t now prev)
    as [[Hnin ->] | (l1 & m & l2 & -> & Hid & Hl1 & ->)].
  - rewrite decide_False by done. unfold ids. by rewrite fmap_app.
  - rewrite decide_True.
    + unfold ids. by rewrite !fmap_app.
    + apply elem_of_ids. exists m. split; [|done].
      apply elem_of_app. right. by left.
Qed.

Lemma upsert_length_present i t now prev :
  i ∈ ids prev → length (upsert i t now prev) = length prev.
Proof.
  intros Hin.
  destruct (upsert_cases i t now prev)
    as [[Hnin _] | (l1 & m & l2 & -> & _ & _ & ->)]; [done|].
  by rewrite !length_app.
Qed.

(** ** Operations that do not touch the transcript *)

Lemma keeps_ret {A} (a : A) : keeps_transcript (mret a).
Proof. done. Qed.

Lemma keeps_throw {A} (e : Thrown) : keeps_transcript (throw (A:=A) e).
Proof. done. Qed.

Lemma keeps_emit fx : keeps_transcript (emit fx).
Proof. done. Qed.

Lemma keeps_read {A} (f : VoiceChat → A) : keeps_transcript (read f).
Proof. done. Qed.

Lemma keeps_perform {A} (o : Outcome A) : keeps_transcript (perform o).
Proof. by destruct o. Qed.

Lemma keeps_lift (f : VoiceChat → VoiceChat) :
  (∀ st, transcript_of (f st) = transcript_of st) → keeps_transcript (lift f).
Proof. intros H st. apply H. Qed.

Lemma keeps_bind {A B} (m : M A) (f : A → M B) :
  keeps_transcript m → (∀ a, keeps_transcript (f a)) →
  keeps_transcript (m ≫= f).
Proof.
  intros Hm Hf st. specialize (Hm st).
  unfold mbind, M_bind, state_of in *.
  destruct (m st) as [[[a|e] st1] fx1]; simpl in *; [|done].
  specialize (Hf a st1). unfold state_of in Hf.
  destruct (f a st1) as [[r st2] fx2]; simpl in *. congruence.
Qed.

Lemma keeps_try_catch {A} (body : M A) (handler : Thrown → M A) :
  keeps_transcript body → (∀ e, keeps_transcript (handler e)) →
  keeps_transcript (try_catch body handler).
Proof.
  intros Hm Hf st. specialize (Hm st).
  unfold try_catch, state_of in *.
  destruct (body st) as [[[a|e] st1] fx1]; simpl in *; [done|].
  specialize (Hf e st1). unfold state_of in Hf.
  destruct (handler e st1) as [[r st2] fx2]; simpl in *. congruence.
Qed.

Ltac keeps_transcript :=
  repeat first
    [ apply keeps_ret | apply keeps_throw | apply keeps_emit
    | apply keeps_read | apply keeps_perform
    | apply keeps_lift; reflexivity
    | apply keeps_bind; [|intros ?]
    | apply keeps_try_catch; [|intros ?]
    | match goal with
      | |- keeps_transcript (match ?x with _ => _ end) => destruct x
      end ].

Lemma cleanup_keeps_transcript : keeps_transcript cleanup.
Proof. unfold cleanup. keeps_transcript. Qed.

Lemma disconnect_keeps_transcript : keeps_transcript disconnect.
Proof. unfold disconnect. keeps_transcript. Qed.

Lemma tick_keeps_transcript data frame : keeps_transcript (tick data frame).
Proof. unfold tick. keeps_transcript. Qed.

Lemma connect_keeps_transcript env : keeps_transcript (connect env).
Proof.
  unfold connect, connect_body, monitorVolume, tick. keeps_transcript.
Qed.

(** Every step other than an inbound event leaves the transcript alone; an
    inbound payload that does not parse, that throws or that is ignored
    leaves the whole state alone. *)
Lemma step_transcript a st :
  transcript_of (step a st) = transcript_of st
  ∨ ∃ ev now, step a st = handleRealtimeEvent ev now st.
Proof.
  destruct a as [env| | |[e|event] now| |data frame|]; simpl.
  - left. apply connect_keeps_transcript.
  - left. apply disconnect_keeps_transcript.
  - by left.
  - by left.
  - destruct (read_event event) as [e| |ev|]; simpl.
    + by left.
    + by left.
    + right. by exists ev, now.
    + by left.
  - by left.
  - left. apply tick_keeps_transcript.
  - by left.
Qed.

(** ** Case analysis on the event kind *)

Lemma kind_cases (ty : JsString) :
  ty = kind_fragment ∨ ty = kind_final ∨ ty = kind_user_final
  ∨ ty = kind_audio_done ∨ ty = kind_error ∨ ty ∉ recognized_kinds.
Proof.
  destruct (decide (ty = kind_fragment)); [by left|right].
  destruct (decide (ty = kind_final)); [by left|right].
  destruct (decide (ty = kind_user_final)); [by left|right].
  destruct (decide (ty = kind_audio_done)); [by left|right].
  destruct (decide (ty = kind_error)); [by left|right].
  unfold recognized_kinds. intros Hin.
  repeat (apply elem_of_cons in Hin as [Hin|Hin]; [done|]).
  by apply elem_of_nil in Hin.
Qed.

(** ** Well-typed events as payloads *)

Lemma to_json_props ev :
  prop (js "type") (to_json ev) = Some (JString (type ev))
  ∧ prop (js "item_id") (to_json ev) = Some (JString (item_id ev))
  ∧ prop (js "delta") (to_json ev) = Some (JString (delta ev))
  ∧ prop (js "transcript") (to_json ev) = Some (JString (transcript ev))
  ∧ match prop (js "error") (to_json ev) with
    | None => None
    | Some JNull => None
    | Some error => prop (js "message") error
    end = JString <$> error_message ev.
Proof.
  repeat split; try reflexivity.
  destruct ev as [t i d tr [message|]]; reflexivity.
Qed.

(** A payload with every field at the type the handler casts it to is
    handled as the typed event. *)
Lemma dc_onmessage_to_json ev now st :
  ∃ m, dc_onmessage (inr (to_json ev)) now = Some m
       ∧ m st = (Normal (), handleRealtimeEvent ev now st, []).
Proof.
  destruct (to_json_props ev) as (Ht & Hi & Hd & Htr & He).
  unfold dc_onmessage, read_event.
  destruct (to_json ev) as [| | | | |properties] eqn:Hjson;
    try (unfold to_json in Hjson; discriminate Hjson).
  rewrite Ht, Hi, Hd, Htr, He. clear Ht Hi Hd Htr He Hjson.
  cbn [concat_operand].
  destruct (kind_cases (type ev)) as [H|[H|[H|[H|[H|H]]]]].
  - rewrite decide_True by done.
    eexists. split; [done|]. unfold lift. do 2 f_equal.
    by rewrite !handle_fragment by done.
  - rewrite decide_False by (rewrite H; by vm_compute).
    rewrite decide_True by done.
    eexists. split; [done|]. unfold lift. do 2 f_equal.
    by rewrite !handle_final by done.
  - do 2 rewrite decide_False by (rewrite H; by vm_compute).
    rewrite decide_True by done.
    destruct (truthy (trim (transcript ev))) eqn:Htr.
    + eexists. split; [done|]. unfold lift. do 2 f_equal.
      by rewrite !handle_user_final by done.
    + eexists. split; [done|]. rewrite handle_user_final by done.
      by rewrite Htr.
  - do 3 rewrite decide_False by (rewrite H; by vm_compute).
    rewrite decide_True by done.
    eexists. split; [done|]. unfold lift. do 2 f_equal.
    rewrite !handle_audio_done; done.
  - do 4 rewrite decide_False by (rewrite H; by vm_compute).
    rewrite decide_True by done.
    destruct (error_message ev) as [[|c message]|] eqn:He;
      cbn [fmap option_fmap option_map truthy_js truthy].
    + eexists. split; [done|]. unfold lift. do 2 f_equal.
      rewrite !handle_error by done. by rewrite He.
    + eexists. split; [done|]. unfold lift. do 2 f_equal.
      rewrite !handle_error by done. by rewrite He.
    + eexists. split; [done|]. unfold lift. do 2 f_equal.
      rewrite !handle_error by done. by rewrite He.
  - repeat (rewrite decide_False;
            [|intros Heq; apply H; rewrite Heq;
              repeat (first [by left|right])]).
    eexists. split; [done|]. by rewrite handle_unrecognized.
Qed.

(** What an event does to the transcript (message list and accumulator),
    kind by kind. *)
Lemma handle_transcript ev now st :
  let st' := handleRealtimeEvent ev now st in
  let i := item_id ev in
  (type ev = kind_fragment ∧
   messages st' = upsert i (new_text ev st) now (messages st) ∧
   partialTranscriptsRef st' =
     <[i := new_text ev st]> (partialTranscriptsRef st))
  ∨ (type ev = kind_final ∧
     messages st' = upsert i (transcript ev) now (messages st) ∧
     partialTranscriptsRef st' = delete i (partialTranscriptsRef st))
  ∨ (type ev = kind_user_final ∧ blank (transcript ev) = false ∧
     messages st' =
       messages st ++ [ {| id := i; role := user;
                           text := trim (transcript ev);
                           timestamp := now |} ] ∧
     partialTranscriptsRef st' = partialTranscriptsRef st)
  ∨ (transcript_of st' = transcript_of st).
Proof.
  intros st' i. subst st' i.
  destruct (kind_cases (type ev)) as [H|[H|[H|[H|[H|H]]]]].
  - left. split; [done|]. rewrite handle_fragment by done.
    unfold new_text. by rewrite decide_True by done.
  - right; left. split; [done|]. by rewrite handle_final by done.
  - rewrite handle_user_final by done. rewrite truthy_trim.
    destruct (blank (transcript ev)) eqn:Hb; simpl.
    + by do 3 right.
    + right; right; left. by repeat split.
  - do 3 right. by rewrite handle_audio_done by done.
  - do 3 right. by rewrite handle_error by done.
  - do 3 right. by rewrite handle_unrecognized by done.
Qed.

(** ** An accumulator entry always has its Message *)

Lemma upsert_ids_grow i t now prev j :
  j ∈ ids prev → j ∈ ids (upsert i t now prev).
Proof.
  intros Hj. rewrite upsert_ids. case_decide; [done|].
  apply elem_of_app. by left.
Qed.

Lemma upsert_ids_self i t now prev : i ∈ ids (upsert i t now prev).
Proof.
  rewrite upsert_ids. case_decide; [done|].
  apply elem_of_app. right. by left.
Qed.

Lemma handle_accumulators_named ev now st :
  accumulators_named st →
  accumulators_named (handleRealtimeEvent ev now st).
Proof.
  intros Hinv j.
  destruct (handle_transcript ev now st)
    as [(_ & -> & ->)|[(_ & -> & ->)|[(_ & _ & -> & ->)|Heq]]].
  - destruct (decide (item_id ev = j)) as [<-|Hne].
    + intros _. apply upsert_ids_self.
    + rewrite lookup_insert_ne by done. intros Hj.
      by apply upsert_ids_grow, Hinv.
  - destruct (decide (item_id ev = j)) as [<-|Hne].
    + rewrite lookup_delete_eq. by intros [? ?].
    + rewrite lookup_delete_ne by done. intros Hj.
      by apply upsert_ids_grow, Hinv.
  - intros Hj. unfold ids. rewrite fmap_app. apply elem_of_app. left.
    by apply Hinv.
  - unfold transcript_of in Heq. injection Heq as -> ->. apply Hinv.
Qed.

Lemma reachable_accumulators_named st :
  reachable st → accumulators_named st.
Proof.
  induction 1 as [|a st _ IH].
  - intros i. simpl. rewrite lookup_empty. by intros [? ?].
  - destruct (step_transcript a st) as [Heq|(ev & now & ->)].
    + unfold transcript_of in Heq. injection Heq as Hm Hp.
      intros i. rewrite Hm, Hp. apply IH.
    + by apply handle_accumulators_named.
Qed.

(** ** Streaming fragments (C1) *)

Lemma with_text_with_text t t' m :
  with_text t' (with_text t m) = with_text t' m.
Proof. done. Qed.

Lemma with_text_same m : with_text (text m) m = m.
Proof. by destruct m. Qed.

Lemma apply_events_cons ev now evs st :
  apply_events ((ev, now) :: evs) st =
    apply_events evs (handleRealtimeEvent ev now st).
Proof. done. Qed.

Lemma fragments_extend i evs : ∀ st l1 m l2,
  fragments_of i evs →
  messages st = l1 ++ m :: l2 → id m = i → (∀ m', m' ∈ l1 → id m' ≠ i) →
  partialTranscriptsRef st !! i = Some (text m) →
  messages (apply_events evs st) =
    l1 ++ with_text (text m ++ deltas evs) m :: l2
  ∧ partialTranscriptsRef (apply_events evs st) !! i =
      Some (text m ++ deltas evs).
Proof.
  induction evs as [|[ev now] evs IH]; intros st l1 m l2 Hfr Hst Hid Hl1 Hacc.
  - unfold deltas. simpl. rewrite app_nil_r, with_text_same. by split.
  - apply Forall_cons in Hfr as [[Hkind Hitem] Hfr]. simpl in Hkind, Hitem.
    rewrite apply_events_cons.
    set (t := text m ++ delta ev).
    assert (Hm1 : messages (handleRealtimeEvent ev now st) =
                    l1 ++ with_text t m :: l2).
    { rewrite handle_fragment by done. simpl.
      rewrite Hitem, Hacc, Hst. simpl. by apply upsert_present. }
    assert (Ha1 : partialTranscriptsRef (handleRealtimeEvent ev now st) !! i =
                    Some t).
    { rewrite handle_fragment by done. simpl.
      rewrite Hitem, Hacc. simpl. by rewrite lookup_insert_eq. }
    destruct (IH (handleRealtimeEvent ev now st) l1 (with_text t m) l2
                Hfr Hm1 Hid Hl1 Ha1) as [Hm Ha].
    rewrite Hm, Ha. simpl. unfold deltas, t. simpl.
    by rewrite with_text_with_text, <- !app_assoc.
Qed.

(** C1: a non-empty sequence of assistant-transcript-fragment events that
    share one item id, applied in arrival order to a state of the component
    that holds no Message with that id, leaves exactly one Message with the
    id; its role is assistant and its text is the concatenation of the
    deltas in arrival order. *)
Theorem fragments_concatenate i evs st :
  reachable st →
  evs ≠ [] →
  fragments_of i evs →
  (∀ m, m ∈ messages st → id m ≠ i) →
  ∃ m, with_id i (messages (apply_events evs st)) = [m]
       ∧ id m = i ∧ role m = assistant ∧ text m = deltas evs.
Proof.
  intros Hreach Hne Hfr Hno.
  destruct evs as [|[ev now] evs]; [done|].
  apply Forall_cons in Hfr as [[Hkind Hitem] Hfr]. simpl in Hkind, Hitem.
  assert (Hacc : partialTranscriptsRef st !! i = None).
  { destruct (partialTranscriptsRef st !! i) as [a|] eqn:Ha; [|done].
    pose proof (reachable_accumulators_named st Hreach i) as Hin.
    rewrite Ha in Hin. specialize (Hin (mk_is_Some _ _ eq_refl)).
    apply elem_of_ids in Hin as (m & Hm & Hid). by destruct (Hno m Hm). }
  set (m0 := {| id := i; role := assistant; text := delta ev;
                timestamp := now |}).
  assert (Hm1 : messages (handleRealtimeEvent ev now st) =
                  messages st ++ m0 :: []).
  { rewrite handle_fragment by done. simpl.
    rewrite Hitem, Hacc. simpl. by apply upsert_absent. }
  assert (Ha1 : partialTranscriptsRef (handleRealtimeEvent ev now st) !! i =
                  Some (text m0)).
  { rewrite handle_fragment by done. simpl.
    rewrite Hitem, Hacc. simpl. by rewrite lookup_insert_eq. }
  destruct (fragments_extend i evs (handleRealtimeEvent ev now st)
              (messages st) m0 [] Hfr Hm1 eq_refl Hno Ha1) as [Hm _].
  rewrite apply_events_cons, Hm.
  exists (with_text (text m0 ++ deltas evs) m0).
  split; [|done].
  rewrite with_id_app, (with_id_absent i (messages st) Hno).
  by rewrite with_id_cons_eq.
Qed.

Lemma fragments_concatenate_witness :
  let evs := [ (fragment_event (js "a1") (js "Hel"), 1%N);
               (fragment_event (js "a1") (js "lo"), 2%N) ] in
  reachable initial
  ∧ evs ≠ []
  ∧ fragments_of (js "a1") evs
  ∧ (∀ m, m ∈ messages initial → id m ≠ js "a1")
  ∧ ∃ m, with_id (js "a1") (messages (apply_events evs initial)) = [m]
         ∧ id m = js "a1" ∧ role m = assistant ∧ text m = js "Hello".
Proof.
  intros evs.
  assert (H1 : reachable initial) by constructor.
  assert (H2 : evs ≠ []) by done.
  assert (H3 : fragments_of (js "a1") evs) by (by repeat constructor).
  assert (H4 : ∀ m, m ∈ messages initial → id m ≠ js "a1").
  { intros m Hm. by apply elem_of_nil in Hm. }
  repeat (split; [assumption|]).
  exact (fragments_concatenate (js "a1") evs initial H1 H2 H3 H4).
Defined.

(** ** Finalization (C2) *)

Lemma upsert_with_id i t now prev :
  length (with_id i (upsert i t now prev)) =
    Nat.max 1 (length (with_id i prev))
  ∧ ∃ m rest, with_id i (upsert i t now prev) = m :: rest ∧ text m = t.
Proof.
  destruct (upsert_cases i t now prev)
    as [[Hnin ->] | (l1 & m & l2 & -> & Hid & Hl1 & ->)].
  - assert (Hno : ∀ m, m ∈ prev → id m ≠ i).
    { intros m Hm Hid. apply Hnin, elem_of_ids. by exists m. }
    rewrite with_id_app, (with_id_absent i prev Hno).
    rewrite with_id_cons_eq by done. split; [done|]. by eexists _, _.
  - rewrite !with_id_app, (with_id_absent i l1 Hl1).
    rewrite !with_id_cons_eq by done. simpl. split; [lia|]. by eexists _, _.
Qed.

Lemma apply_events_reachable evs st :
  reachable st → reachable (apply_events evs st).
Proof.
  revert st. induction evs as [|[ev now] evs IH]; intros st Hst; [done|].
  rewrite apply_events_cons. apply IH.
  pose proof (reachable_step (DcMessage (inr (to_json ev)) now) st Hst) as Hr.
  unfold step in Hr.
  destruct (dc_onmessage_to_json ev now st) as (m & Hm & Hrun).
  by rewrite Hm, Hrun in Hr.
Qed.

(** C2 as stated fails: in a reachable state that already holds two Messages
    with the id, the final event rewrites the first and leaves two. *)
Lemma final_not_always_unique :
  ¬ (∀ st ev now, reachable st → type ev = kind_final →
       length (with_id (item_id ev)
                 (messages (handleRealtimeEvent ev now st))) = 1%nat).
Proof.
  intros H.
  specialize (H two_user_turns (final_event (js "x") (js "three")) 3%N).
  assert (Hr : reachable two_user_turns)
    by (apply apply_events_reachable; constructor).
  specialize (H Hr eq_refl). by vm_compute in H.
Qed.

(** C2, amended: an assistant-transcript-final event leaves as many Messages
    with its id as there were, and one if there was none; the first of them
    has the payload verbatim as its text, so when at most one Message had
    the id there is exactly one afterwards, with the payload as text.  The
    accumulator entry of the id is gone and isAiSpeaking is false. *)
Theorem final_is_authoritative ev now st :
  type ev = kind_final →
  let i := item_id ev in
  let st' := handleRealtimeEvent ev now st in
  length (with_id i (messages st')) =
    Nat.max 1 (length (with_id i (messages st)))
  ∧ (∃ m rest, with_id i (messages st') = m :: rest
               ∧ text m = transcript ev)
  ∧ ((length (with_id i (messages st)) ≤ 1)%nat →
     ∃ m, with_id i (messages st') = [m] ∧ text m = transcript ev)
  ∧ partialTranscriptsRef st' !! i = None
  ∧ isAiSpeaking st' = false.
Proof.
  intros Hkind i st'. subst i st'. rewrite handle_final by done. simpl.
  destruct (upsert_with_id (item_id ev) (transcript ev) now (messages st))
    as [Hlen (m & rest & Hw & Ht)].
  split; [exact Hlen|]. split; [by exists m, rest|].
  split; [|split; [apply lookup_delete_eq|done]].
  intros Hle. exists m. split; [|done].
  rewrite Hw in Hlen |- *. simpl in Hlen.
  destruct rest; [done|]. simpl in Hlen. lia.
Qed.

Lemma final_is_authoritative_witness :
  let st := apply_events [ (fragment_event (js "a1") (js "Hel"), 1%N);
                           (fragment_event (js "a1") (js "lo"), 2%N) ]
              initial in
  let ev := final_event (js "a1") (js "Hello there") in
  type ev = kind_final
  ∧ with_id (js "a1") (messages (handleRealtimeEvent ev 3%N st)) =
      [ {| id := js "a1"; role := assistant; text := js "Hello there";
           timestamp := 1%N |} ]
  ∧ partialTranscriptsRef (handleRealtimeEvent ev 3%N st) !! js "a1" = None.
Proof.
  intros st ev.
  assert (Hk : type ev = kind_final) by done.
  split; [exact Hk|].
  destruct (final_is_authoritative ev 3%N st Hk) as (_ & _ & _ & Hacc & _).
  split; [by vm_compute|exact Hacc].
Defined.

(** ** At most one Message per id (C3) *)

(** C3 as stated fails: a second user-transcript-final event for an id
    appends a second Message with that id. *)
Lemma unique_ids_not_invariant :
  ¬ (∀ st ev now, NoDup (ids (messages st)) →
       NoDup (ids (messages (handleRealtimeEvent ev now st)))).
Proof.
  intros H.
  specialize (H (handleRealtimeEvent
                   (user_final_event (js "u1") (js "hello")) 1%N initial)
                (user_final_event (js "u1") (js "again")) 2%N).
  assert (Hnd : NoDup (ids (messages (handleRealtimeEvent
                   (user_final_event (js "u1") (js "hello")) 1%N initial)))).
  { vm_compute. apply NoDup_singleton. }
  specialize (H Hnd). vm_compute in H.
  apply NoDup_cons in H as [Hnin _]. apply Hnin. by left.
Qed.

Lemma with_id_unique i l1 m l2 :
  NoDup (ids (l1 ++ m :: l2)) → id m = i → with_id i (l1 ++ m :: l2) = [m].
Proof.
  intros Hnd Hid. unfold ids in Hnd. rewrite fmap_app, fmap_cons in Hnd.
  apply NoDup_app in Hnd as (_ & Hcross & Hnd2).
  apply NoDup_cons in Hnd2 as [Hnin2 _].
  rewrite with_id_app, with_id_cons_eq by done.
  rewrite (with_id_absent i l1), (with_id_absent i l2); [done| |].
  - intros m' Hm' Hid'. apply Hnin2. rewrite Hid, <- Hid'.
    by apply list_elem_of_fmap_2.
  - intros m' Hm' Hid'. apply (Hcross i).
    + rewrite <- Hid'. by apply list_elem_of_fmap_2.
    + rewrite Hid. by left.
Qed.

(** C3, amended: "no two Messages share an id" is preserved by every event
    except a user-transcript-final event with a non-blank payload whose id
    already names a Message; that event appends a second Message with the
    id.  A fragment or final event for an existing id changes the text of
    the Message in place: the list keeps its length and its ids, and the one
    Message with the id carries the new text. *)
Theorem unique_ids_preserved ev now st :
  NoDup (ids (messages st)) →
  let i := item_id ev in
  let st' := handleRealtimeEvent ev now st in
  (¬ (type ev = kind_user_final ∧ blank (transcript ev) = false
      ∧ i ∈ ids (messages st)) →
   NoDup (ids (messages st')))
  ∧ (type ev = kind_fragment ∨ type ev = kind_final →
     i ∈ ids (messages st) →
     ids (messages st') = ids (messages st)
     ∧ length (messages st') = length (messages st)
     ∧ ∃ m, with_id i (messages st') = [m] ∧ text m = new_text ev st)
  ∧ (type ev = kind_user_final → blank (transcript ev) = false →
     messages st' =
       messages st ++ [ {| id := i; role := user;
                           text := trim (transcript ev);
                           timestamp := now |} ]).
Proof.
  intros Hnd i st'. subst i st'. split; [|split].
  - intros Hex.
    destruct (handle_transcript ev now st)
      as [(_ & -> & _)|[(_ & -> & _)|[(Hk & Hb & -> & _)|Heq]]].
    + rewrite upsert_ids. case_decide; [done|].
      apply NoDup_app. split; [done|]. split; [|apply NoDup_singleton].
      intros j Hj Hj'. apply list_elem_of_singleton in Hj'. by subst.
    + rewrite upsert_ids. case_decide; [done|].
      apply NoDup_app. split; [done|]. split; [|apply NoDup_singleton].
      intros j Hj Hj'. apply list_elem_of_singleton in Hj'. by subst.
    + unfold ids. rewrite fmap_app. simpl.
      apply NoDup_app. split; [done|]. split; [|apply NoDup_singleton].
      intros j Hj Hj'. apply list_elem_of_singleton in Hj'. subst.
      by apply Hex.
    + unfold transcript_of in Heq. by injection Heq as -> _.
  - intros Hkind Hin.
    rewrite (messages_assistant_event ev now st Hkind).
    split; [by rewrite upsert_ids, decide_True by done|].
    split; [by apply upsert_length_present|].
    destruct (upsert_cases (item_id ev) (new_text ev st) now (messages st))
      as [[Hnin _] | (l1 & m & l2 & Heq & Hid & Hl1 & Hup)]; [done|].
    exists (with_text (new_text ev st) m). split; [|done].
    rewrite Hup. apply with_id_unique; [|done].
    rewrite Heq in Hnd. unfold ids in *.
    by rewrite fmap_app, fmap_cons in *.
  - intros Hkind Hb. rewrite handle_user_final by done.
    by rewrite truthy_trim, Hb.
Qed.

Lemma unique_ids_preserved_witness :
  let st := handleRealtimeEvent (fragment_event (js "a1") (js "Hel")) 1%N
              initial in
  let ev := fragment_event (js "a1") (js "lo") in
  NoDup (ids (messages st))
  ∧ NoDup (ids (messages (handleRealtimeEvent ev 2%N st))).
Proof.
  intros st ev.
  assert (Hnd : NoDup (ids (messages st)))
    by (vm_compute; apply NoDup_singleton).
  split; [exact Hnd|].
  apply (proj1 (unique_ids_preserved ev 2%N st Hnd)).
  intros (Hk & _). by vm_compute in Hk.
Defined.

(** ** Malformed and unrecognized payloads (C4) *)

(** C4 as stated fails: the on-message callback parses the payload outside
    any [try] and the handler reads [event.type] unguarded, so a payload
    that is not JSON and the payload [null] make the callback throw; and a
    fragment event without its [delta] is not ignored but appends the text
    ["undefined"]. *)
Lemma malformed_payload_throws :
  ¬ (∀ data now st, malformed data ∨ unrecognized data →
       onmessage_outcome data now st = Some (Normal (), st, []))
  ∧ onmessage_outcome (inl SyntaxError) 0%N initial
    = Some (Abrupt SyntaxError, initial, [])
  ∧ onmessage_outcome (inr JNull) 0%N initial
    = Some (Abrupt TypeError_null, initial, [])
  ∧ (λ r, messages (state_of r))
      <$> onmessage_outcome (inr (fragment_without_delta (js "a1"))) 0%N
            initial
    = Some [ {| id := js "a1"; role := assistant; text := js "undefined";
                timestamp := 0%N |} ].
Proof.
  split; [|by vm_compute].
  intros H.
  specialize (H (inl SyntaxError) 0%N initial
                (or_introl (or_introl (ex_intro _ _ eq_refl)))).
  discriminate H.
Qed.

Lemma read_event_no_recognized_kind event :
  event ≠ JNull → no_recognized_kind event → read_event event = Ignored.
Proof.
  intros Hnull Hkind. unfold no_recognized_kind, kind_of in Hkind.
  unfold read_event.
  destruct event as [| | | | |properties]; try done.
  destruct (prop (js "type") (JObject properties)) as [[| | |type| |]|];
    try done.
  specialize (Hkind type eq_refl).
  repeat (rewrite decide_False;
          [|intros Heq; apply Hkind; rewrite Heq;
            repeat (first [by left|right])]).
  done.
Qed.

(** C4, amended: a payload that parses to any value other than [null] whose
    [type] is not one of the recognized kinds (a missing [type], one that is
    not a string, a primitive or an array included) leaves the whole state
    unchanged, throws nothing and calls nothing.  A payload that does not
    parse, and the payload [null], also leave the state unchanged, but the
    callback throws. *)
Theorem unrecognized_ignored_malformed_throws data now st :
  (∀ event, data = inr event → event ≠ JNull → no_recognized_kind event →
     onmessage_outcome data now st = Some (Normal (), st, []))
  ∧ (∀ e, data = inl e →
       onmessage_outcome data now st = Some (Abrupt e, st, []))
  ∧ (data = inr JNull →
     onmessage_outcome data now st = Some (Abrupt TypeError_null, st, [])).
Proof.
  unfold onmessage_outcome, dc_onmessage. split; [|split].
  - intros event -> Hnull Hkind.
    by rewrite (read_event_no_recognized_kind event Hnull Hkind).
  - by intros e ->.
  - by intros ->.
Qed.

Lemma unrecognized_ignored_malformed_throws_witness :
  let st := handleRealtimeEvent (fragment_event (js "a1") (js "Hel")) 1%N
              initial in
  let foo := JObject [ (js "type", JString (js "foo.bar")) ] in
  foo ≠ JNull
  ∧ no_recognized_kind foo
  ∧ onmessage_outcome (inr foo) 2%N st = Some (Normal (), st, [])
  ∧ onmessage_outcome (inr (JNumber (js "42"))) 2%N st
    = Some (Normal (), st, [])
  ∧ onmessage_outcome (inl SyntaxError) 2%N st
    = Some (Abrupt SyntaxError, st, [])
  ∧ onmessage_outcome (inr JNull) 2%N st
    = Some (Abrupt TypeError_null, st, []).
Proof.
  intros st foo.
  assert (Hn : foo ≠ JNull) by done.
  assert (Hk : no_recognized_kind foo).
  { intros kind [= <-] Hin.
    repeat (apply elem_of_cons in Hin as [Hin|Hin]; [by vm_compute in Hin|]).
    by apply elem_of_nil in Hin. }
  split; [exact Hn|]. split; [exact Hk|].
  destruct (unrecognized_ignored_malformed_throws (inr foo) 2%N st)
    as (H1 & _ & _).
  destruct (unrecognized_ignored_malformed_throws
              (inr (JNumber (js "42"))) 2%N st) as (H2 & _ & _).
  destruct (unrecognized_ignored_malformed_throws (inl SyntaxError) 2%N st)
    as (_ & H3 & _).
  destruct (unrecognized_ignored_malformed_throws (inr JNull) 2%N st)
    as (_ & _ & H4).
  split; [exact (H1 foo eq_refl Hn Hk)|].
  split; [apply (H2 _ eq_refl); [done|by intros kind [=]]|].
  split; [exact (H3 _ eq_refl)|exact (H4 eq_refl)].
Defined.

(** ** The speaking flag (C6) *)

Lemma handle_raises_flag_only_on_fragment ev now st :
  type ev ≠ kind_fragment →
  isAiSpeaking (handleRealtimeEvent ev now st) = true →
  isAiSpeaking st = true.
Proof.
  intros Hne.
  destruct (kind_cases (type ev)) as [H|[H|[H|[H|[H|H]]]]]; [done|..].
  - by rewrite handle_final by done.
  - rewrite handle_user_final by done. by destruct (truthy _).
  - by rewrite handle_audio_done by done.
  - by rewrite handle_error by done.
  - by rewrite handle_unrecognized by done.
Qed.

(** C6 as stated fails: the handler has no case for an audio-start signal.
    No event kind other than the transcript fragment sets the flag, and the
    audio-start event of the remote side leaves it false. *)
Lemma no_audio_start_signal :
  ¬ (∃ kind, kind ≠ kind_fragment ∧
       ∀ ev now st, type ev = kind →
         isAiSpeaking (handleRealtimeEvent ev now st) = true)
  ∧ isAiSpeaking (handleRealtimeEvent audio_start_event 0%N initial) = false.
Proof.
  split; [|done].
  intros (kind & Hne & H).
  specialize (H (other_event kind) 0%N initial eq_refl).
  by apply handle_raises_flag_only_on_fragment in H.
Qed.

(** ** Teardown (C9) *)

Lemma cleanup_run st :
  cleanup st = (Normal (), torn_down st, release_calls st).
Proof.
  destruct st as [s ms sp er vol pc dc el str an fr acc].
  unfold cleanup, release_calls, torn_down.
  unfold mbind, M_bind, mret, M_ret, read, emit, lift.
  destruct fr, str, dc, pc, el; cbn;
    rewrite ?app_nil_r, <- ?app_assoc; reflexivity.
Qed.

Lemma disconnect_run st :
  disconnect st =
    (Normal (), setStatus disconnected (torn_down st), release_calls st).
Proof.
  unfold disconnect, mbind, M_bind. rewrite cleanup_run.
  unfold lift. by rewrite app_nil_r.
Qed.

Lemma release_calls_releases st : releases st (release_calls st).
Proof.
  unfold releases, release_calls. split; [|split; [|split; [|split]]].
  - intros frame ->. apply elem_of_app. left. by left.
  - intros tracks track -> Hin. apply elem_of_app. right.
    apply elem_of_app. left. by apply list_elem_of_fmap_2.
  - intros dc ->. do 2 (apply elem_of_app; right).
    apply elem_of_app. left. by left.
  - intros pc ->. do 3 (apply elem_of_app; right).
    apply elem_of_app. left. by left.
  - intros el ->. split; do 4 (apply elem_of_app; right).
    + by left.
    + right. by left.
Qed.

Lemma release_calls_none st : all_released st → release_calls st = [].
Proof.
  intros (Hf & Hs & Hd & Hp & He & _). unfold release_calls.
  by rewrite Hf, Hs, Hd, Hp, He.
Qed.

(** C9: [disconnect] never throws and is idempotent: a second call returns
    the state of the first and calls nothing.  One call cancels the pending
    animation frame of the volume meter, stops every captured track, closes
    the message channel and the peer connection and removes the audio sink,
    whichever of them are held; it clears every ref, sets the status to
    disconnected, inputVolume to 0 and isAiSpeaking to false.  With nothing
    held (as when already disconnected) it calls nothing and only resets
    status and flags. *)
Theorem disconnect_idempotent st :
  let r := disconnect st in
  let st' := state_of r in
  completion_of r = Normal ()
  ∧ disconnect st' = (Normal (), st', [])
  ∧ releases st (trace_of r)
  ∧ all_released st'
  ∧ status st' = disconnected
  ∧ inputVolume st' = 0%Q
  ∧ isAiSpeaking st' = false
  ∧ messages st' = messages st
  ∧ (all_released st →
     trace_of r = []
     ∧ st' = setStatus disconnected
               (setIsAiSpeaking false (setInputVolume 0%Q st))).
Proof.
  intros r st'. subst r st'. rewrite disconnect_run.
  unfold completion_of, state_of, trace_of. simpl.
  split; [done|]. split; [by rewrite disconnect_run|].
  split; [apply release_calls_releases|].
  do 5 (split; [done|]).
  intros Hrel. split; [by apply release_calls_none|].
  destruct Hrel as (Hf & Hs & Hd & Hp & He & Ha).
  destruct st; simpl in *; subst; reflexivity.
Qed.

(** C6, amended: isAiSpeaking is true right after an
    assistant-transcript-fragment event, and no other event can turn it on
    (the handler has no audio-start case); it is false right after an
    assistant-transcript-final or assistant-audio-finished event, and false
    after [cleanup] and after [disconnect]. *)
Theorem speaking_flag ev now st :
  (type ev = kind_fragment →
   isAiSpeaking (handleRealtimeEvent ev now st) = true)
  ∧ (type ev ≠ kind_fragment →
     isAiSpeaking (handleRealtimeEvent ev now st) = true →
     isAiSpeaking st = true)
  ∧ (type ev = kind_final ∨ type ev = kind_audio_done →
     isAiSpeaking (handleRealtimeEvent ev now st) = false)
  ∧ isAiSpeaking (state_of (cleanup st)) = false
  ∧ isAiSpeaking (state_of (disconnect st)) = false.
Proof.
  split; [|split; [|split; [|split]]].
  - intros H. by rewrite handle_fragment by done.
  - apply handle_raises_flag_only_on_fragment.
  - intros [H|H].
    + by rewrite handle_final by done.
    + by rewrite handle_audio_done by done.
  - by rewrite cleanup_run.
  - by rewrite disconnect_run.
Qed.

Lemma speaking_flag_witness :
  let speaking := handleRealtimeEvent (fragment_event (js "a1") (js "Hi")) 1%N
                    connected_session in
  isAiSpeaking speaking = true
  ∧ isAiSpeaking
      (handleRealtimeEvent (other_event kind_audio_done) 2%N speaking) = false
  ∧ isAiSpeaking (state_of (disconnect speaking)) = false.
Proof.
  intros speaking.
  destruct (speaking_flag (fragment_event (js "a1") (js "Hi")) 1%N
              connected_session) as (H1 & _).
  destruct (speaking_flag (other_event kind_audio_done) 2%N speaking)
    as (_ & _ & H3 & _ & H5).
  split; [exact (H1 eq_refl)|]. split; [exact (H3 (or_intror eq_refl))|exact H5].
Defined.

(** ** Errors (C5) *)

Ltac unfold_M :=
  unfold mbind, M_bind, mret, M_ret, read, emit, lift, perform, throw.

Ltac run_connect :=
  repeat (cbn -[js or_else truthy_opt Qdiv inject_Z foldl];
          match goal with
          | |- context [match ?x with inl _ => _ | inr _ => _ end] =>
              destruct x
          | |- context [if negb ?b then _ else _] => destruct b
          | |- context [let (_, _) := ?x in _] => destruct x
          end).

Ltac elem_of_trace :=
  repeat match goal with
    | H : _ ∈ [] |- _ => by apply elem_of_nil in H
    | H : _ ∈ _ :: _ |- _ => apply elem_of_cons in H as [H|H]
    | H : _ ∈ _ ++ _ |- _ => apply elem_of_app in H as [H|H]
    | H : _ ∈ _ <$> _ |- _ => apply list_elem_of_fmap in H as (? & ? & ?)
    end.

Lemma connect_body_acquired env st0 :
  acquired (state_of (connect_body env st0)) (trace_of (connect_body env st0)).
Proof.
  destruct env as [fs pc el gum ctx src an data fr dc co sld fsdp srd].
  unfold connect_body, monitorVolume, tick. unfold_M.
  destruct fs as [e|[ok json]].
  all: run_connect.
  all: unfold acquired, state_of, trace_of;
    cbn -[js or_else truthy_opt Qdiv inject_Z foldl].
  all: repeat split; intros; elem_of_trace; simplify_eq; eauto.
Qed.

Lemma acquired_released st fx :
  acquired st fx → released_after fx (release_calls st).
Proof.
  intros (Hpc & Hel & Htr & Hfr & Hdc).
  destruct (release_calls_releases st) as (Rfr & Rtr & Rdc & Rpc & Rel).
  split; [|split; [|split; [|split]]].
  - intros pc H. by apply Rpc, Hpc.
  - intros el H. by apply Rel, Hel.
  - intros pc track H. destruct (Htr pc track H) as (tracks & Hs & Hin).
    by apply (Rtr tracks).
  - intros frame H. by apply Rfr, Hfr.
  - intros pc dc H. apply Rdc. by apply (Hdc pc).
Qed.

(** How [connect] ends when its [try] block throws. *)
Lemma connect_run_failure env st e st1 fx1 :
  connect_body env (setStatus connecting (setError None st))
    = (Abrupt e, st1, fx1) →
  connect env st =
    (Normal (),
     torn_down (setStatus disconnected (setError (Some (error_text e)) st1)),
     fx1 ++ release_calls st1).
Proof.
  intros Hbody. unfold connect, try_catch. unfold_M.
  rewrite Hbody. rewrite cleanup_run. simpl.
  by rewrite ?app_nil_r.
Qed.

(** The failures of the taxonomy that arise inside [connect]. *)

Lemma credential_error_unreachable env st e :
  fetch_session env = inl e → connect_body env st = (Abrupt e, st, []).
Proof. intros H. unfold connect_body. unfold_M. by rewrite H. Qed.

Lemma credential_error_status env st res errData :
  fetch_session env = inr res → tokenRes_ok res = false →
  tokenRes_json res = inr errData →
  connect_body env st =
    (Abrupt (ErrorObject (or_else (json_error errData)
                            (js "Failed to get session token"))), st, []).
Proof.
  intros H1 H2 H3. destruct env, res. simpl in *. by subst.
Qed.

Lemma credential_error_no_key env st res sessionData :
  fetch_session env = inr res → tokenRes_ok res = true →
  tokenRes_json res = inr sessionData →
  truthy_opt (client_secret_value sessionData) = false →
  connect_body env st =
    (Abrupt (ErrorObject (js "No ephemeral key received from server")),
     st, []).
Proof.
  intros H1 H2 H3 H4. destruct env, res. simpl in *. subst.
  unfold connect_body. unfold_M. simpl. by rewrite H4.
Qed.

Lemma media_access_error env st res sessionData e :
  fetch_session env = inr res → tokenRes_ok res = true →
  tokenRes_json res = inr sessionData →
  truthy_opt (client_secret_value sessionData) = true →
  getUserMedia env = inl e →
  connect_body env st =
    (Abrupt e,
     set_audioElRef (Some (fresh_audioEl env))
       (set_pcRef (Some (fresh_pc env)) st),
     [new_RTCPeerConnection (fresh_pc env);
      body_appendChild (fresh_audioEl env)]).
Proof.
  intros H1 H2 H3 H4 H5. destruct env, res. simpl in *. subst.
  unfold connect_body. unfold_M. simpl. by rewrite H4.
Qed.

Lemma signaling_error env st res sessionData stream offer sdpRes :
  fetch_session env = inr res → tokenRes_ok res = true →
  tokenRes_json res = inr sessionData →
  truthy_opt (client_secret_value sessionData) = true →
  getUserMedia env = inr stream →
  createOffer env = inr offer → setLocalDescription env = inr () →
  fetch_sdp env = inr sdpRes → sdpRes_ok sdpRes = false →
  completion_of (connect_body env st) =
    Abrupt (ErrorObject
              (js "Failed to establish WebRTC connection with OpenAI")).
Proof.
  intros H1 H2 H3 H4 H5 H6 H7 H8 H9. destruct env, res, sdpRes.
  simpl in *. subst.
  unfold connect_body, monitorVolume, tick. unfold_M.
  cbn -[js truthy_opt Qdiv inject_Z foldl]. by rewrite H4.
Qed.

Lemma releases_app_r st fx0 fx : releases st fx → releases st (fx0 ++ fx).
Proof.
  intros (Rfr & Rtr & Rdc & Rpc & Rel).
  split; [|split; [|split; [|split]]].
  - intros frame H. apply elem_of_app. right. by apply Rfr.
  - intros tracks track H Hin. apply elem_of_app. right. by apply (Rtr tracks).
  - intros dc H. apply elem_of_app. right. by apply Rdc.
  - intros pc H. apply elem_of_app. right. by apply Rpc.
  - intros el H. destruct (Rel el H).
    split; apply elem_of_app; by right.
Qed.

Lemma released_after_app_r fx1 fx0 fx :
  released_after fx1 fx → released_after fx1 (fx0 ++ fx).
Proof.
  intros (Rpc & Rel & Rtr & Rfr & Rdc).
  split; [|split; [|split; [|split]]].
  - intros pc H. apply elem_of_app. right. by apply Rpc.
  - intros el H. apply elem_of_app. right. by apply Rel.
  - intros pc track H. apply elem_of_app. right. by apply (Rtr pc).
  - intros frame H. apply elem_of_app. right. by apply Rfr.
  - intros pc dc H. apply elem_of_app. right. by apply (Rdc pc).
Qed.

(** C5 as stated fails for a RemoteReportedError, in a session in full
    flight: the remote-error event reports its message but leaves the status
    connected and every resource held. *)
Lemma remote_error_not_torn_down :
  ¬ (∀ st ev now, type ev = kind_error →
       reverted_and_reported (handleRealtimeEvent ev now st)).
Proof.
  intros H.
  destruct (H connected_session (error_event (Some (js "boom"))) 0%N
              eq_refl) as (Hst & _).
  by vm_compute in Hst.
Qed.

(** C5, amended: a CredentialError, MediaAccessError or SignalingError, and
    any other throw inside the [try] block of [connect], is caught:
    [connect] completes normally with status disconnected and the thrown
    error's message as the one surfaced message; every ref is cleared and
    what the refs held is released: the pending animation frame of the
    meter, the captured tracks, the message channel, the peer connection
    and the audio sink, those this attempt acquired included.  A
    remote-error event only surfaces its message: status and resources stay
    as they were. *)
Theorem connect_errors_torn_down env st e st1 fx1 :
  connect_body env (setStatus connecting (setError None st))
    = (Abrupt e, st1, fx1) →
  let r := connect env st in
  (completion_of r = Normal ()
   ∧ status (state_of r) = disconnected
   ∧ error (state_of r) = Some (error_text e)
   ∧ all_released (state_of r)
   ∧ inputVolume (state_of r) = 0%Q
   ∧ isAiSpeaking (state_of r) = false
   ∧ trace_of r = fx1 ++ release_calls st1
   ∧ releases st1 (trace_of r)
   ∧ released_after fx1 (trace_of r))
  ∧ (∀ ev now, type ev = kind_error →
       handleRealtimeEvent ev now st =
         setError (Some (or_else (error_message ev)
                           (js "An error occurred"))) st).
Proof.
  intros Hbody r. subst r. split.
  - rewrite (connect_run_failure env st e st1 fx1 Hbody).
    unfold completion_of, state_of, trace_of. simpl.
    do 7 (split; [done|]). split.
    + apply releases_app_r, release_calls_releases.
    + apply released_after_app_r, acquired_released.
      pose proof (connect_body_acquired env
                    (setStatus connecting (setError None st))) as Hacq.
      by rewrite Hbody in Hacq.
  - intros ev now Hkind. by rewrite handle_error.
Qed.

Lemma connect_errors_torn_down_witness :
  let st1 := set_audioElRef (Some 2%positive)
               (set_pcRef (Some 1%positive)
                  (setStatus connecting (setError None initial))) in
  let fx1 := [new_RTCPeerConnection 1%positive;
              body_appendChild 2%positive] in
  connect_body mic_denied (setStatus connecting (setError None initial))
    = (Abrupt (ErrorObject (js "Permission denied")), st1, fx1)
  ∧ status (state_of (connect mic_denied initial)) = disconnected
  ∧ error (state_of (connect mic_denied initial))
      = Some (js "Permission denied")
  ∧ trace_of (connect mic_denied initial) =
      [new_RTCPeerConnection 1%positive; body_appendChild 2%positive;
       pc_close 1%positive; audioEl_srcObject_null 2%positive;
       audioEl_remove 2%positive].
Proof.
  intros st1 fx1.
  assert (Hbody :
    connect_body mic_denied (setStatus connecting (setError None initial))
      = (Abrupt (ErrorObject (js "Permission denied")), st1, fx1))
    by reflexivity.
  split; [exact Hbody|].
  destruct (connect_errors_torn_down mic_denied initial _ st1 fx1 Hbody)
    as ((_ & Hs & He & _ & _ & _ & Ht & _) & _).
  split; [exact Hs|]. split; [exact He|exact Ht].
Defined.

(** ** Scenarios *)

(** Two fragments and a final for ["a1"]: one assistant Message with the
    final text. *)
Example scenario_fragments_then_final :
  messages
    (apply_events [ (fragment_event (js "a1") (js "Hel"), 1%N);
                    (fragment_event (js "a1") (js "lo"), 2%N);
                    (final_event (js "a1") (js "Hello there"), 3%N) ]
       initial)
  = [ {| id := js "a1"; role := assistant; text := js "Hello there";
         timestamp := 1%N |} ].
Proof. by vm_compute. Qed.

(** A whitespace-only user turn changes nothing. *)
Example scenario_blank_user_turn :
  handleRealtimeEvent (user_final_event (js "u1") (js "   ")) 1%N
    connected_session
  = connected_session.
Proof. by vm_compute. Qed.

(** An unrecognized event changes nothing and throws nothing. *)
Example scenario_unrecognized :
  onmessage_outcome (inr (JObject [ (js "type", JString (js "foo.bar")) ]))
    1%N connected_session
  = Some (Normal (), connected_session, []).
Proof. by vm_compute. Qed.

(** Ending a session in full flight. *)
Example scenario_disconnect :
  trace_of (disconnect connected_session)
  = [ cancelAnimationFrame 5%positive; track_stop 3%positive;
      dc_close 6%positive; pc_close 1%positive;
      audioEl_srcObject_null 2%positive; audioEl_remove 2%positive ]
  ∧ state_of (disconnect connected_session) = initial.
Proof. by vm_compute. Qed.

(** * Further properties of the Event Interpreter *)

(** ** What an event never touches *)

(** X1: an inbound event changes neither the connection status, nor the input
    volume, nor any resource ref; it changes [error] only when its kind is
    [error]; and an audio-done, error or unrecognized event leaves messages
    and accumulators alone. *)
Theorem event_frame ev now st :
  let st' := handleRealtimeEvent ev now st in
  status st' = status st
  ∧ inputVolume st' = inputVolume st
  ∧ (pcRef st' = pcRef st ∧ dcRef st' = dcRef st
     ∧ audioElRef st' = audioElRef st ∧ streamRef st' = streamRef st
     ∧ analyserRef st' = analyserRef st ∧ animFrameRef st' = animFrameRef st)
  ∧ (type ev ≠ kind_error → error st' = error st)
  ∧ (type ev ∉ [kind_fragment; kind_final; kind_user_final] →
     transcript_of st' = transcript_of st)
  ∧ (type ev ∉ [kind_fragment; kind_final; kind_audio_done] →
     isAiSpeaking st' = isAiSpeaking st).
Proof.
  intros st'. subst st'.
  destruct (kind_cases (type ev)) as [H|[H|[H|[H|[H|H]]]]].
  - rewrite handle_fragment by done. simpl. repeat split; try done.
    all: intros Hn; exfalso; apply Hn; rewrite H; by left.
  - rewrite handle_final by done. simpl. repeat split; try done.
    all: intros Hn; exfalso; apply Hn; rewrite H; right; by left.
  - rewrite handle_user_final by done.
    destruct (truthy _); simpl; repeat split; try done.
    intros Hn; exfalso; apply Hn; rewrite H; right; right; by left.
  - rewrite handle_audio_done by done. simpl. repeat split; try done.
    intros Hn; exfalso; apply Hn; rewrite H; right; right; by left.
  - rewrite handle_error by done. simpl. repeat split; try done.
  - rewrite handle_unrecognized by done. by repeat split.
Qed.

(** ** The history only grows *)

Lemma skeleton_app l1 l2 : skeleton (l1 ++ l2) = skeleton l1 ++ skeleton l2.
Proof. unfold skeleton. apply fmap_app. Qed.

Lemma upsert_skeleton i t now prev :
  ∃ tail, skeleton (upsert i t now prev) = skeleton prev ++ tail
          ∧ (length tail ≤ 1)%nat.
Proof.
  destruct (upsert_cases i t now prev)
    as [[Hnin ->] | (l1 & m & l2 & -> & Hid & Hl1 & ->)].
  - eexists. rewrite skeleton_app. split; [done|]. simpl. lia.
  - exists []. rewrite app_nil_r, !skeleton_app. split; [done|]. simpl. lia.
Qed.

Lemma handle_skeleton ev now st :
  ∃ tail,
    skeleton (messages (handleRealtimeEvent ev now st)) =
      skeleton (messages st) ++ tail
    ∧ (length tail ≤ 1)%nat.
Proof.
  destruct (handle_transcript ev now st)
    as [(_ & -> & _)|[(_ & -> & _)|[(_ & _ & -> & _)|Heq]]].
  - apply upsert_skeleton.
  - apply upsert_skeleton.
  - eexists. rewrite skeleton_app. split; [done|]. simpl. lia.
  - unfold transcript_of in Heq. injection Heq as -> _.
    exists []. rewrite app_nil_r. split; [done|]. simpl. lia.
Qed.

(** X2: whatever happens to the component (an event, a connect, a disconnect, a
    channel callback, a tick), every Message already in the list keeps its
    position, id, role and timestamp, and at most one Message is added, at
    the end: the list is never reordered, never shrinks, and no Message
    changes sides. *)
Theorem history_only_grows a st :
  ∃ tail,
    skeleton (messages (step a st)) = skeleton (messages st) ++ tail
    ∧ (length tail ≤ 1)%nat.
Proof.
  destruct (step_transcript a st) as [Heq|(ev & now & ->)].
  - unfold transcript_of in Heq. injection Heq as -> _.
    exists []. rewrite app_nil_r. split; [done|]. simpl. lia.
  - apply handle_skeleton.
Qed.

(** ** Items do not interfere *)

Lemma with_id_upsert_ne i j t now prev :
  i ≠ j → with_id i (upsert j t now prev) = with_id i prev.
Proof.
  intros Hne.
  destruct (upsert_cases j t now prev)
    as [[Hnin ->] | (l1 & m & l2 & -> & Hid & Hl1 & ->)].
  - rewrite with_id_app, with_id_cons_ne by (simpl; congruence).
    apply app_nil_r.
  - rewrite !with_id_app. f_equal.
    rewrite !with_id_cons_ne; [done|congruence|simpl; congruence].
Qed.

Lemma handle_other_id ev now st i :
  i ≠ item_id ev →
  with_id i (messages (handleRealtimeEvent ev now st)) =
    with_id i (messages st)
  ∧ partialTranscriptsRef (handleRealtimeEvent ev now st) !! i =
      partialTranscriptsRef st !! i.
Proof.
  intros Hne.
  destruct (handle_transcript ev now st)
    as [(_ & -> & ->)|[(_ & -> & ->)|[(_ & _ & -> & ->)|Heq]]].
  - split; [by apply with_id_upsert_ne|by apply lookup_insert_ne].
  - split; [by apply with_id_upsert_ne|by apply lookup_delete_ne].
  - split; [|done]. rewrite with_id_app, with_id_cons_ne by (simpl; congruence).
    apply app_nil_r.
  - unfold transcript_of in Heq. by injection Heq as -> ->.
Qed.

(** X3: an event for one item leaves the Messages and the partial transcript of
    every other item exactly as they were. *)
Theorem other_items_untouched ev now st i :
  i ≠ item_id ev →
  let st' := handleRealtimeEvent ev now st in
  with_id i (messages st') = with_id i (messages st)
  ∧ partialTranscriptsRef st' !! i = partialTranscriptsRef st !! i.
Proof. intros Hne st'. by apply handle_other_id. Qed.

Lemma other_items_untouched_witness :
  let st := handleRealtimeEvent (fragment_event (js "a1") (js "Hel")) 1%N
              initial in
  let ev := final_event (js "a2") (js "Bye") in
  js "a1" ≠ item_id ev
  ∧ with_id (js "a1") (messages (handleRealtimeEvent ev 2%N st)) =
      [ {| id := js "a1"; role := assistant; text := js "Hel";
           timestamp := 1%N |} ]
  ∧ partialTranscriptsRef (handleRealtimeEvent ev 2%N st) !! js "a1" =
      Some (js "Hel").
Proof.
  intros st ev.
  assert (Hne : js "a1" ≠ item_id ev) by (by vm_compute).
  split; [exact Hne|].
  destruct (other_items_untouched ev 2%N st (js "a1") Hne) as [Hm Ha].
  split; [rewrite Hm|rewrite Ha]; by vm_compute.
Defined.

(** ** The accumulator mirrors the list *)

Lemma handle_accumulators_mirrored ev now st :
  accumulators_mirrored st →
  accumulators_mirrored (handleRealtimeEvent ev now st).
Proof.
  intros Hinv i a.
  destruct (decide (i = item_id ev)) as [->|Hne].
  - destruct (handle_transcript ev now st)
      as [(_ & -> & ->)|[(_ & -> & ->)|[(_ & _ & -> & ->)|Heq]]].
    + rewrite lookup_insert_eq. intros [= <-].
      apply (upsert_with_id (item_id ev) (new_text ev st) now (messages st)).
    + by rewrite lookup_delete_eq.
    + intros Ha. destruct (Hinv _ _ Ha) as (m & rest & Hw & Ht).
      rewrite with_id_app, Hw. by eexists _, _.
    + unfold transcript_of in Heq. injection Heq as -> ->. apply Hinv.
  - destruct (handle_other_id ev now st i Hne) as [-> ->]. apply Hinv.
Qed.

(** X4: in every state the component can reach, each partial transcript is the
    text of the first Message with its id: what is accumulated is what is
    shown. *)
Theorem accumulator_is_displayed st :
  reachable st → accumulators_mirrored st.
Proof.
  induction 1 as [|a st _ IH].
  - intros i a. simpl. by rewrite lookup_empty.
  - destruct (step_transcript a st) as [Heq|(ev & now & ->)].
    + unfold transcript_of in Heq. injection Heq as Hm Hp.
      intros i b. rewrite Hm, Hp. apply IH.
    + by apply handle_accumulators_mirrored.
Qed.

Lemma accumulator_is_displayed_witness :
  let st := apply_events
              [ (user_final_event (js "x") (js "hi"), 1%N);
                (fragment_event (js "a1") (js "Hel"), 2%N);
                (fragment_event (js "a1") (js "lo"), 3%N) ] initial in
  reachable st
  ∧ ∃ m rest, with_id (js "a1") (messages st) = m :: rest
              ∧ text m = js "Hello".
Proof.
  intros st.
  assert (Hr : reachable st)
    by (apply apply_events_reachable; constructor).
  split; [exact Hr|].
  apply (accumulator_is_displayed st Hr (js "a1") (js "Hello")).
  by vm_compute.
Defined.

(** ** A final event delivered twice *)

Lemma upsert_idempotent i t now now' prev :
  upsert i t now' (upsert i t now prev) = upsert i t now prev.
Proof.
  destruct (upsert_cases i t now prev)
    as [[Hnin ->] | (l1 & m & l2 & -> & Hid & Hl1 & ->)].
  - rewrite upsert_present; [done| |done].
    intros m Hm Hid. apply Hnin, elem_of_ids. by exists m.
  - by rewrite upsert_present.
Qed.

(** X5: handling the same assistant-transcript-final event a second time, at
    any later clock reading, changes nothing. *)
Theorem final_idempotent ev now now' st :
  type ev = kind_final →
  handleRealtimeEvent ev now' (handleRealtimeEvent ev now st) =
    handleRealtimeEvent ev now st.
Proof.
  intros Hkind. rewrite !handle_final by done.
  unfold setIsAiSpeaking, setMessages, set_partialTranscripts. simpl.
  rewrite upsert_idempotent. f_equal.
  apply map_eq. intros j.
  destruct (decide (j = item_id ev)) as [->|Hne].
  - by rewrite !lookup_delete_eq.
  - by rewrite !lookup_delete_ne.
Qed.

Lemma final_idempotent_witness :
  let ev := final_event (js "a1") (js "Hello there") in
  let st := handleRealtimeEvent (fragment_event (js "a1") (js "Hel")) 1%N
              initial in
  type ev = kind_final
  ∧ messages (handleRealtimeEvent ev 3%N (handleRealtimeEvent ev 2%N st)) =
      [ {| id := js "a1"; role := assistant; text := js "Hello there";
           timestamp := 1%N |} ].
Proof.
  intros ev st.
  assert (Hk : type ev = kind_final) by done.
  split; [exact Hk|].
  rewrite (final_idempotent ev 2%N 3%N st Hk). by vm_compute.
Defined.

(** ** Remote errors *)



(** ** The text of a user turn *)

Lemma trimStart_split s :
  ∃ pre, s = pre ++ trimStart s ∧ blank pre = true.
Proof.
  induction s as [|c s (pre & IH & Hpre)]; simpl.
  - by exists [].
  - destruct (is_js_whitespace c) eqn:Hc.
    + exists (c :: pre). simpl. rewrite Hc, Hpre. split; [by f_equal|done].
    + by exists [].
Qed.

Lemma trimStart_head s c r :
  trimStart s = c :: r → is_js_whitespace c = false.
Proof.
  induction s as [|d s IH]; simpl; [done|].
  destruct (is_js_whitespace d) eqn:Hd; [exact IH|].
  by intros [= <- _].
Qed.

Lemma blank_rev s : blank (rev s) = blank s.
Proof.
  unfold blank. induction s as [|c s IH]; simpl; [done|].
  rewrite forallb_app, IH. simpl. rewrite andb_true_r. apply andb_comm.
Qed.

Lemma trimEnd_split s :
  ∃ post, s = trimEnd s ++ post ∧ blank post = true.
Proof.
  unfold trimEnd. destruct (trimStart_split (rev s)) as (pre & Heq & Hpre).
  exists (rev pre). split; [|by rewrite blank_rev].
  rewrite <- rev_app_distr, <- Heq. by rewrite rev_involutive.
Qed.

(** [trim] strips whitespace, and only whitespace, from both ends. *)
Lemma trim_spec s :
  blank s = false →
  ∃ pre post c mid d,
    s = pre ++ trim s ++ post ∧ blank pre = true ∧ blank post = true
    ∧ trim s = c :: mid ∧ is_js_whitespace c = false
    ∧ (∃ init, trim s = init ++ [d]) ∧ is_js_whitespace d = false.
Proof.
  intros Hb. unfold trim.
  destruct (trimStart_split s) as (pre & Hs & Hpre).
  destruct (trimStart_not_blank s Hb) as (c & s' & Ht & Hc).
  destruct (trimEnd_split (trimStart s)) as (post & He & Hpost).
  pose proof (trimStart_snoc (rev s') c Hc) as Hne.
  unfold trimEnd in *. rewrite Ht in *. simpl in *.
  destruct (trimStart (rev s' ++ [c])) as [|d u] eqn:Hu; [done|].
  pose proof (trimStart_head _ _ _ Hu) as Hd.
  simpl in *.
  assert (Hhead : ∃ mid, rev u ++ [d] = c :: mid).
  { destruct (rev u) as [|x r]; simpl in *.
    - injection He as -> _. by exists [].
    - injection He as -> _. by eexists. }
  destruct Hhead as (mid & Hmid).
  exists pre, post, c, mid, d.
  split; [by rewrite Hs at 1; rewrite He at 1|].
  repeat split; try done. by exists (rev u).
Qed.

(** X7: the Message a user-transcript-final event appends carries the payload
    with the whitespace at both ends removed and nothing else: its text is
    non-empty, begins and ends with a non-whitespace character, and the
    payload is that text between two runs of whitespace. *)
Theorem user_turn_text ev now st :
  type ev = kind_user_final →
  blank (transcript ev) = false →
  ∃ m pre post c mid d,
    messages (handleRealtimeEvent ev now st) = messages st ++ [m]
    ∧ id m = item_id ev ∧ role m = user ∧ timestamp m = now
    ∧ transcript ev = pre ++ text m ++ post
    ∧ blank pre = true ∧ blank post = true
    ∧ text m = c :: mid ∧ is_js_whitespace c = false
    ∧ (∃ init, text m = init ++ [d]) ∧ is_js_whitespace d = false.
Proof.
  intros Hkind Hb. rewrite handle_user_final by done.
  rewrite truthy_trim, Hb. simpl.
  destruct (trim_spec (transcript ev) Hb)
    as (pre & post & c & mid & d & H1 & H2 & H3 & H4 & H5 & H6 & H7).
  eexists _, pre, post, c, mid, d. split; [done|]. simpl.
  by repeat split.
Qed.

Lemma user_turn_text_witness :
  let ev := user_final_event (js "u1") (js "  hi there ") in
  type ev = kind_user_final
  ∧ blank (transcript ev) = false
  ∧ ∃ m, messages (handleRealtimeEvent ev 1%N initial) = [m]
         ∧ text m = js "hi there".
Proof.
  intros ev.
  assert (Hk : type ev = kind_user_final) by done.
  assert (Hb : blank (transcript ev) = false) by (by vm_compute).
  split; [exact Hk|]. split; [exact Hb|].
  destruct (user_turn_text ev 1%N initial Hk Hb)
    as (m & _ & _ & _ & _ & _ & Hm & _).
  eexists. split; [by vm_compute|done].
Defined.

(** * Further properties of the session *)

(** ** The volume meter *)

Lemma foldl_add_bound (data : list N) : ∀ a : N,
  Forall (λ b, (b ≤ 255)%N) data →
  (foldl N.add a data ≤ a + 255 * N.of_nat (length data))%N.
Proof.
  induction data as [|b data IH]; intros a Hall; simpl.
  - lia.
  - apply Forall_cons in Hall as [Hb Hall].
    specialize (IH (a + b)%N Hall). lia.
Qed.

(** X8: with the bytes the analyser writes (at least one, each at most 255),
    the volume a tick stores lies between 0 and 1, in exact arithmetic. *)
Theorem tick_volume_normalized data frame st :
  data ≠ [] →
  Forall (λ b, (b ≤ 255)%N) data →
  (0 <= inputVolume (state_of (tick data frame st)))%Q
  ∧ (inputVolume (state_of (tick data frame st)) <= 1)%Q.
Proof.
  intros Hne Hall. unfold tick. unfold_M. unfold state_of. simpl.
  pose proof (foldl_add_bound data 0%N Hall) as Hsum.
  assert (Hlen : (0 < length data)%nat) by (destruct data; [done|simpl; lia]).
  set (s := foldl N.add 0%N data) in *.
  destruct (Z.of_nat (length data)) as [|p|p] eqn:Hp; [lia| |lia].
  assert (Hs : Z.of_N s <= 255 * Z.pos p) by lia.
  unfold Qdiv, Qmult, Qinv, Qle, inject_Z. simpl. split; lia.
Qed.

Lemma tick_volume_normalized_witness :
  [0%N; 255%N] ≠ []
  ∧ Forall (λ b, (b ≤ 255)%N) [0%N; 255%N]
  ∧ (inputVolume (state_of (tick [0%N; 255%N] 5%positive initial)) <= 1)%Q.
Proof.
  assert (H1 : [0%N; 255%N] ≠ []) by done.
  assert (H2 : Forall (λ b, (b ≤ 255)%N) [0%N; 255%N])
    by (repeat constructor; lia).
  split; [exact H1|]. split; [exact H2|].
  exact (proj2 (tick_volume_normalized [0%N; 255%N] 5%positive initial H1 H2)).
Defined.

(** ** How [connect] ends *)

(** A run of the [try] block that does not throw. *)
Lemma connect_body_success env st0 :
  completion_of (connect_body env st0) = Normal () →
  let st1 := state_of (connect_body env st0) in
  (∃ stream, getUserMedia env = inr stream ∧ streamRef st1 = Some stream
     ∧ trace_of (connect_body env st0) =
         [new_RTCPeerConnection (fresh_pc env);
          body_appendChild (fresh_audioEl env)]
         ++ (pc_addTrack (fresh_pc env) <$> stream)
         ++ [new_AudioContext (fresh_audioCtx env);
             audioCtx_createMediaStreamSource (fresh_audioCtx env)
               (fresh_source env);
             audioCtx_createAnalyser (fresh_audioCtx env) (fresh_analyser env);
             source_connect (fresh_source env) (fresh_analyser env);
             requestAnimationFrame (fresh_frame env);
             pc_createDataChannel (fresh_pc env) (fresh_dc env)])
  ∧ pcRef st1 = Some (fresh_pc env)
  ∧ audioElRef st1 = Some (fresh_audioEl env)
  ∧ analyserRef st1 = Some (fresh_analyser env)
  ∧ animFrameRef st1 = Some (fresh_frame env)
  ∧ dcRef st1 = Some (fresh_dc env)
  ∧ status st1 = status st0 ∧ error st1 = error st0.
Proof.
  destruct env as [fs pc el gum ctx src an data fr dc co sld fsdp srd].
  unfold connect_body, monitorVolume, tick. unfold_M.
  destruct fs as [e|[ok json]].
  all: run_connect.
  all: unfold completion_of, state_of, trace_of;
    cbn -[js or_else truthy_opt Qdiv inject_Z foldl].
  all: try discriminate.
  all: intros _; split; [by eexists|done].
Qed.

Lemma connect_run_success env st :
  completion_of
    (connect_body env (setStatus connecting (setError None st))) = Normal () →
  connect env st = connect_body env (setStatus connecting (setError None st)).
Proof.
  unfold connect, try_catch. unfold_M. unfold completion_of.
  destruct (connect_body env _) as [[[[]|e] st1] fx1]; simpl; [done|].
  discriminate.
Qed.

(** X9: [connect] never throws and ends in one of two ways.  Either the
    [try] block completed: the status is connecting (it becomes connected
    only when the channel opens), no error is shown and every ref holds the
    handle this attempt acquired.  Or the [try] block threw some [e]: the
    status is disconnected, [error] is the message of [e] when [e] is an
    [Error] and ["Connection failed"] otherwise, every ref is cleared and
    the derived flags are reset. *)
Theorem connect_outcomes env st :
  let body := connect_body env (setStatus connecting (setError None st)) in
  let r := connect env st in
  let st' := state_of r in
  completion_of r = Normal ()
  ∧ ((completion_of body = Normal ()
      ∧ status st' = connecting ∧ error st' = None
      ∧ (∃ stream, getUserMedia env = inr stream ∧ streamRef st' = Some stream)
      ∧ pcRef st' = Some (fresh_pc env)
      ∧ audioElRef st' = Some (fresh_audioEl env)
      ∧ analyserRef st' = Some (fresh_analyser env)
      ∧ animFrameRef st' = Some (fresh_frame env)
      ∧ dcRef st' = Some (fresh_dc env))
     ∨ (∃ e, completion_of body = Abrupt e
        ∧ status st' = disconnected
        ∧ error st' = Some match e with
                           | ErrorObject message => message
                           | NonError => js "Connection failed"
                           end
        ∧ all_released st'
        ∧ inputVolume st' = 0%Q ∧ isAiSpeaking st' = false)).
Proof.
  intros body r st'. subst body r st'.
  destruct (connect_body env (setStatus connecting (setError None st)))
    as [[[[]|e] st1] fx1] eqn:Hbody.
  - assert (Hc : completion_of (connect_body env
                   (setStatus connecting (setError None st))) = Normal ())
      by by rewrite Hbody.
    rewrite (connect_run_success env st Hc).
    destruct (connect_body_success env _ Hc)
      as ((stream & Hg & Hs & _) & Hpc & Hel & Han & Hfr & Hdc & Hst & Her).
    rewrite Hbody in *.
    split; [done|]. left. split; [done|].
    split; [by rewrite Hst|]. split; [by rewrite Her|].
    split; [by exists stream|]. done.
  - rewrite (connect_run_failure env st e st1 fx1 Hbody).
    split; [done|]. right. exists e. unfold state_of, completion_of. simpl.
    split; [done|]. split; [done|]. split; [by destruct e|]. done.
Qed.

Lemma connect_outcomes_witness :
  completion_of
    (connect_body mic_denied (setStatus connecting (setError None initial)))
    = Abrupt (ErrorObject (js "Permission denied"))
  ∧ status (state_of (connect mic_denied initial)) = disconnected
  ∧ error (state_of (connect mic_denied initial))
    = Some (js "Permission denied")
  ∧ status (state_of (connect sample_browser initial)) = connecting.
Proof.
  assert (Hb : completion_of
                 (connect_body mic_denied
                    (setStatus connecting (setError None initial)))
               = Abrupt (ErrorObject (js "Permission denied")))
    by reflexivity.
  split; [exact Hb|].
  destruct (connect_outcomes mic_denied initial)
    as [_ [(Hn & _)|(e & He & Hs & Her & _)]].
  - rewrite Hb in Hn. discriminate Hn.
  - rewrite Hb in He. injection He as <-.
    split; [exact Hs|]. split; [exact Her|].
    destruct (connect_outcomes sample_browser initial)
      as [_ [(_ & Hs' & _)|(e' & He' & _)]]; [exact Hs'|].
    by vm_compute in He'.
Defined.

(** ** What a session leaves behind *)

Lemma release_calls_acquire_nothing st : acquires_nothing (release_calls st).
Proof.
  unfold acquires_nothing, release_calls.
  destruct (animFrameRef st), (streamRef st), (dcRef st), (pcRef st),
    (audioElRef st).
  all: repeat split; intros; intros Hin; elem_of_trace; simplify_eq.
Qed.

Lemma trace_of_disconnect st : trace_of (disconnect st) = release_calls st.
Proof. by rewrite disconnect_run. Qed.

Lemma connect_body_never_closes env st0 ctx :
  audioCtx_close ctx ∉ trace_of (connect_body env st0).
Proof.
  destruct env as [fs pc el gum actx src an data fr dc co sld fsdp srd].
  unfold connect_body, monitorVolume, tick. unfold_M.
  destruct fs as [e|[ok json]].
  all: run_connect.
  all: unfold trace_of; cbn -[js or_else truthy_opt Qdiv inject_Z foldl].
  all: intros Hin; elem_of_trace; simplify_eq.
Qed.

Lemma release_calls_never_closes st ctx :
  audioCtx_close ctx ∉ release_calls st.
Proof.
  unfold release_calls.
  destruct (animFrameRef st), (streamRef st), (dcRef st), (pcRef st),
    (audioElRef st).
  all: intros Hin; elem_of_trace; simplify_eq.
Qed.

Lemma connect_released_after env st :
  released_after (trace_of (connect env st))
    (trace_of (connect env st)
     ++ release_calls (state_of (connect env st))).
Proof.
  destruct (connect_body env (setStatus connecting (setError None st)))
    as [[[[]|e] st1] fx1] eqn:Hbody.
  - assert (Hc : completion_of (connect_body env
                   (setStatus connecting (setError None st))) = Normal ())
      by by rewrite Hbody.
    rewrite (connect_run_success env st Hc), Hbody.
    unfold state_of, trace_of. simpl.
    apply released_after_app_r, acquired_released.
    pose proof (connect_body_acquired env
                  (setStatus connecting (setError None st))) as Hacq.
    by rewrite Hbody in Hacq.
  - rewrite (connect_run_failure env st e st1 fx1 Hbody).
    unfold state_of, trace_of. simpl.
    pose proof (connect_body_acquired env
                  (setStatus connecting (setError None st))) as Hacq.
    rewrite Hbody in Hacq. apply acquired_released in Hacq.
    destruct Hacq as (Rpc & Rel & Rtr & Rfr & Rdc).
    destruct (release_calls_acquire_nothing st1)
      as (Npc & Nel & Ntr & Nfr & Ndc).
    split; [|split; [|split; [|split]]].
    + intros pc H. apply elem_of_app in H as [H|H]; [|by destruct (Npc pc)].
      apply elem_of_app. left. apply elem_of_app. right. by apply Rpc.
    + intros el H. apply elem_of_app in H as [H|H]; [|by destruct (Nel el)].
      apply elem_of_app. left. apply elem_of_app. right. by apply Rel.
    + intros pc t H. apply elem_of_app in H as [H|H]; [|by destruct (Ntr pc t)].
      apply elem_of_app. left. apply elem_of_app. right. by apply (Rtr pc).
    + intros fr H. apply elem_of_app in H as [H|H]; [|by destruct (Nfr fr)].
      apply elem_of_app. left. apply elem_of_app. right. by apply Rfr.
    + intros pc dc H. apply elem_of_app in H as [H|H];
        [|by destruct (Ndc pc dc)].
      apply elem_of_app. left. apply elem_of_app. right. by apply (Rdc pc).
Qed.

(** X10: after [connect] and a following [disconnect], whatever the outcome
    of the attempt, every peer connection, audio element, captured track,
    animation frame and data channel the attempt acquired has been
    released, no ref holds anything and the status is disconnected.  The
    [AudioContext] of the meter, which every completed attempt creates, is
    the exception: it is held in no ref and is never closed. *)
Theorem connect_then_disconnect_releases env st :
  let body := connect_body env (setStatus connecting (setError None st)) in
  let r := connect env st in
  let r' := disconnect (state_of r) in
  released_after (trace_of r) (trace_of r ++ trace_of r')
  ∧ all_released (state_of r')
  ∧ status (state_of r') = disconnected
  ∧ (∀ ctx, audioCtx_close ctx ∉ trace_of r ++ trace_of r')
  ∧ (completion_of body = Normal () →
     new_AudioContext (fresh_audioCtx env) ∈ trace_of r).
Proof.
  intros body r r'. subst body r r'.
  rewrite trace_of_disconnect.
  split; [apply connect_released_after|].
  rewrite disconnect_run. unfold state_of at 1 2. simpl.
  split; [done|]. split; [done|]. split.
  - intros ctx Hin. apply elem_of_app in Hin as [Hin|Hin];
      [|by apply release_calls_never_closes in Hin].
    destruct (connect_body env (setStatus connecting (setError None st)))
      as [[[[]|e] st1] fx1] eqn:Hbody.
    + assert (Hc : completion_of (connect_body env
                     (setStatus connecting (setError None st))) = Normal ())
        by by rewrite Hbody.
      rewrite (connect_run_success env st Hc) in Hin.
      by apply connect_body_never_closes in Hin.
    + rewrite (connect_run_failure env st e st1 fx1 Hbody) in Hin.
      unfold trace_of in Hin. simpl in Hin.
      apply elem_of_app in Hin as [Hin|Hin];
        [|by apply release_calls_never_closes in Hin].
      pose proof (connect_body_never_closes env
                    (setStatus connecting (setError None st)) ctx) as Hn.
      rewrite Hbody in Hn. by apply Hn.
  - intros Hc. rewrite (connect_run_success env st Hc).
    destruct (connect_body_success env _ Hc) as ((stream & _ & _ & ->) & _).
    apply elem_of_app. right. apply elem_of_app. right. by left.
Qed.

(** ** Connecting over a session that was never torn down *)

(** X11: [connect] does not tear down what the refs already hold.  When an
    attempt succeeds on a state whose [pcRef] holds another peer connection
    (as after the message channel closed, which only sets the status), the
    ref is overwritten: neither [connect] nor a following [disconnect]
    closes the old peer connection, and the old microphone tracks are never
    stopped. *)
Theorem reconnect_orphans_session env st old :
  pcRef st = Some old →
  old ≠ fresh_pc env →
  completion_of
    (connect_body env (setStatus connecting (setError None st))) = Normal () →
  let r := connect env st in
  let r' := disconnect (state_of r) in
  pcRef (state_of r) = Some (fresh_pc env)
  ∧ (pc_close old ∉ trace_of r ++ trace_of r')
  ∧ (∀ tracks track stream,
       streamRef st = Some tracks → track ∈ tracks →
       getUserMedia env = inr stream → track ∉ stream →
       track_stop track ∉ (trace_of r ++ trace_of r')).
Proof.
  intros Hold Hne Hc r r'. subst r r'.
  rewrite (connect_run_success env st Hc), trace_of_disconnect.
  destruct (connect_body_success env _ Hc)
    as ((stream & Hg & Hs & Htr) & Hpc & Hel & Han & Hfr & Hdc & _ & _).
  rewrite Htr. unfold release_calls. rewrite Hfr, Hs, Hdc, Hpc, Hel.
  split; [done|]. split.
  - intros Hin. elem_of_trace; simplify_eq.
  - intros tracks track stream' _ _ Hg' Hnin Hin.
    rewrite Hg in Hg'. injection Hg' as <-.
    elem_of_trace; simplify_eq.
Qed.

Lemma reconnect_orphans_session_witness :
  let st := channel_closed_session in
  status st = disconnected
  ∧ pcRef st = Some 1%positive
  ∧ 1%positive ≠ fresh_pc second_browser
  ∧ completion_of
      (connect_body second_browser
         (setStatus connecting (setError None st))) = Normal ()
  ∧ pc_close 1%positive
      ∉ (trace_of (connect second_browser st)
         ++ trace_of (disconnect (state_of (connect second_browser st)))).
Proof.
  intros st.
  assert (H1 : pcRef st = Some 1%positive) by reflexivity.
  assert (H2 : 1%positive ≠ fresh_pc second_browser) by done.
  assert (H3 : completion_of
                 (connect_body second_browser
                    (setStatus connecting (setError None st))) = Normal ())
    by reflexivity.
  split; [reflexivity|]. split; [exact H1|]. split; [exact H2|].
  split; [exact H3|].
  exact (proj1 (proj2 (reconnect_orphans_session second_browser st
                         1%positive H1 H2 H3))).
Defined.

(** ** The conversation outlives the session *)

(** X12: neither [connect] (whatever its outcome), nor [disconnect], nor
    [cleanup], nor a channel open or close, nor a tick changes the message
    list or the partial transcripts: only inbound events do. *)
Theorem conversation_outlives_session env data frame st :
  transcript_of (state_of (connect env st)) = transcript_of st
  ∧ transcript_of (state_of (disconnect st)) = transcript_of st
  ∧ transcript_of (state_of (cleanup st)) = transcript_of st
  ∧ transcript_of (state_of (dc_onopen st)) = transcript_of st
  ∧ transcript_of (state_of (dc_onclose st)) = transcript_of st
  ∧ transcript_of (state_of (tick data frame st)) = transcript_of st.
Proof.
  split; [apply connect_keeps_transcript|].
  split; [apply disconnect_keeps_transcript|].
  split; [apply cleanup_keeps_transcript|].
  split; [done|]. split; [done|]. apply tick_keeps_transcript.
Qed.

(** * Properties of the credential endpoint *)

Lemma NextResponse_json_inr body status r :
  NextResponse_json body status = inr r →
  r = {| res_status := status; res_body := body |}
  ∧ (200 ≤ status ≤ 599)%N ∧ null_body_status status = false.
Proof.
  unfold NextResponse_json.
  destruct ((200 <=? status) && (status <=? 599))%N eqn:Hr; simpl; [|done].
  destruct (null_body_status status); [done|].
  intros [= <-]. apply andb_true_iff in Hr as [H1 H2].
  apply N.leb_le in H1, H2. done.
Qed.

Lemma POST_body_inr upstream r :
  POST_body upstream = inr r →
  (200 ≤ res_status r ≤ 599)%N
  ∧ ((∃ response data,
        upstream = inr response ∧ response_ok (up_status response) = true
        ∧ up_json response = inr data
        ∧ r = {| res_status := 200; res_body := data |})
     ∨ (∃ response errorData,
          upstream = inr response ∧ response_ok (up_status response) = false
          ∧ up_text response = inr errorData
          ∧ r = {| res_status := up_status response;
                   res_body := error_json (js "Failed to create session") |})).
Proof.
  unfold POST_body. destruct upstream as [e|response]; [done|].
  destruct (response_ok (up_status response)) eqn:Hok; simpl.
  - destruct (up_json response) as [e|data] eqn:Hj; [done|].
    intros H. apply NextResponse_json_inr in H as (-> & Hr & _).
    split; [done|]. left. by exists response, data.
  - destruct (up_text response) as [e|errorData] eqn:Ht; [done|].
    intros H. apply NextResponse_json_inr in H as (-> & Hr & _).
    split; [done|]. right. by exists response, errorData.
Qed.

(** X13: the response of [POST] always has a status between 200 and 599.  It is
    a success (2xx) only when a key is configured and the upstream answered
    2xx with a body that parses; the response is then 200 with that body,
    verbatim.  Every other response carries one of the endpoint's three
    fixed error strings and no credential: what the upstream wrote in an
    error body never reaches the client. *)
Theorem POST_response_shape apiKey upstream :
  let r := (POST apiKey upstream).1 in
  (200 ≤ res_status r ≤ 599)%N
  ∧ (response_ok (res_status r) = true →
     ∃ key response data,
       apiKey = Some key ∧ key ≠ []
       ∧ upstream = inr response ∧ response_ok (up_status response) = true
       ∧ up_json response = inr data
       ∧ r = {| res_status := 200; res_body := data |})
  ∧ (response_ok (res_status r) = false →
     ∃ msg, msg ∈ endpoint_errors ∧ res_body r = error_json msg).
Proof.
  intros r. subst r. unfold POST.
  destruct (truthy_opt apiKey) eqn:Hkey; simpl.
  - destruct apiKey as [key|]; [|done]. simpl in Hkey.
    destruct (POST_body upstream) as [e|r] eqn:Hbody; simpl.
    + split; [lia|]. split; [by vm_compute|].
      intros _. eexists. split; [|done]. right; right; by left.
    + destruct (POST_body_inr upstream r Hbody)
        as [Hr [(response & data & -> & Hok & Hj & ->)
               |(response & errorData & -> & Hok & Ht & ->)]].
      * split; [done|]. split; [|by vm_compute].
        intros _. exists key, response, data.
        repeat split; try done. by destruct key.
      * split; [done|]. simpl. rewrite Hok. split; [done|].
        intros _. eexists. split; [|done]. right; by left.
  - split; [lia|]. split; [by vm_compute|].
    intros _. eexists. split; [|done]. by left.
Qed.


(** ** The endpoint and [connect] together *)

Lemma POST_error_body apiKey upstream :
  response_ok (res_status (POST apiKey upstream).1) = false →
  ∃ msg, msg ∈ endpoint_errors ∧ msg ≠ []
         ∧ res_body (POST apiKey upstream).1 = error_json msg.
Proof.
  unfold POST.
  destruct (truthy_opt apiKey) eqn:Hkey; simpl.
  - destruct (POST_body upstream) as [e|r] eqn:Hbody; simpl.
    + intros _. eexists. split; [right; right; by left|]. by split.
    + destruct (POST_body_inr upstream r Hbody)
        as [_ [(response & data & _ & _ & _ & ->)
              |(response & errorData & _ & _ & _ & ->)]]; simpl.
      * by vm_compute.
      * intros _. eexists. split; [right; by left|]. by split.
  - intros _. eexists. split; [by left|]. by split.
Qed.

Lemma release_calls_setters v e st :
  release_calls (setStatus v (setError e st)) = release_calls st.
Proof. done. Qed.

(** X15: when the endpoint answers with a failure, whatever its cause (no key,
    upstream unreachable, upstream refusal, unreadable body), [connect]
    surfaces the endpoint's own error string, never its fallback text; the
    status is disconnected and the attempt acquires nothing: no peer
    connection is created and the microphone is not asked for.  When the
    endpoint answers 200 but the body has no [client_secret.value],
    [connect] reports the missing key, again acquiring nothing. *)
Theorem connect_surfaces_endpoint_error apiKey upstream env st :
  fetch_session env = session_fetch (POST apiKey upstream).1 →
  let answer := (POST apiKey upstream).1 in
  let r := connect env st in
  (response_ok (res_status answer) = false →
   ∃ msg, msg ∈ endpoint_errors
          ∧ res_body answer = error_json msg
          ∧ error (state_of r) = Some msg
          ∧ status (state_of r) = disconnected
          ∧ trace_of r = release_calls st)
  ∧ (response_ok (res_status answer) = true →
     truthy_opt (client_secret_value (res_body answer)) = false →
     error (state_of r) = Some (js "No ephemeral key received from server")
     ∧ status (state_of r) = disconnected
     ∧ trace_of r = release_calls st).
Proof.
  intros Hfetch answer r. subst answer r. unfold session_fetch in Hfetch.
  split.
  - intros Hok.
    destruct (POST_error_body apiKey upstream Hok) as (msg & Hin & Hne & Hb).
    exists msg. split; [done|]. split; [done|].
    pose proof (credential_error_status env
                  (setStatus connecting (setError None st)) _ _
                  Hfetch Hok eq_refl) as Hbody.
    rewrite Hb in Hbody.
    change (json_error (error_json msg)) with (Some msg) in Hbody.
    assert (Hmsg : or_else (Some msg) (js "Failed to get session token") = msg)
      by (by destruct msg).
    rewrite Hmsg in Hbody.
    rewrite (connect_run_failure env st _ _ _ Hbody).
    unfold state_of, trace_of. simpl. by rewrite release_calls_setters.
  - intros Hok Hkey.
    pose proof (credential_error_no_key env
                  (setStatus connecting (setError None st)) _ _
                  Hfetch Hok eq_refl Hkey) as Hbody.
    rewrite (connect_run_failure env st _ _ _ Hbody).
    unfold state_of, trace_of. simpl. by rewrite release_calls_setters.
Qed.

Lemma connect_surfaces_endpoint_error_witness :
  fetch_session keyless_browser = session_fetch (POST None (inl NonError)).1
  ∧ error (state_of (connect keyless_browser initial)) =
      Some (js "OPENAI_API_KEY is not configured")
  ∧ trace_of (connect keyless_browser initial) = [].
Proof.
  assert (Hf : fetch_session keyless_browser =
                 session_fetch (POST None (inl NonError)).1) by reflexivity.
  split; [exact Hf|].
  destruct (proj1 (connect_surfaces_endpoint_error None (inl NonError)
                     keyless_browser initial Hf) eq_refl)
    as (msg & _ & Hb & He & _ & Ht).
  split; [|exact Ht].
  rewrite He. f_equal. by injection Hb as <-.
Defined.
